(** * how-to-write-fast-code: k-means clustering and dense matrix product

    A shallow embedding of

    - [kmeans/omp_kmeans.c]: [euclid_dist_2], [find_nearest_cluster] and
      the clustering entry point [omp_kmeans];
    - [matrix_mul/omp/matrix_mul.cpp]: [omp::matrix_multiplication] and
      [matrix_multiplication_subblock];
    - [matrix_mul/omp/optimization/matrix_mul4.cc]:
      [omp::matrix_multiplication].

    Conventions of the embedding.

    - C [int] variables are integers of [Z].  Signed overflow is undefined
      in C: the product [delta *= magnitude] is the outcome [Undefined]
      when it leaves the range of [int]; the counters and the counts of
      [omp_kmeans] stay within the number of objects and of passes.  C
      [unsigned int] values are integers of [Z] reduced modulo [2^32]
      after every operation, [size_t] values modulo [2^64].
    - In [omp_kmeans], [float] is IEEE binary32 and [double] is binary64,
      both through the executable specification of [SpecFloat]; every
      operation rounds to nearest even.  The matrix routines are stated
      over exact arithmetic: the elements of the matrices are taken in an
      arbitrary ring.
    - In [omp_kmeans] heap blocks are lists; a read or a write outside a
      block is the outcome [Undefined].  The matrices are maps from the
      element index to the element.
    - The OpenMP regions are given their sequential meaning.  In
      [omp_kmeans] the iterations of the work-shared loop run in index
      order, iteration [i] on the worker [tid_of i]; the variable [k] of
      the source, which the region shares between workers, is treated as
      private.  With one worker ([nthreads = 1]) this is what the source
      does.  With several workers the source races on [k] and on the
      accumulator slots two workers reach: the properties that depend on
      the value of the inner sum or on the order of the updates are
      stated for one worker.  In the matrix routines the iterations run
      in the order of the loops; the workers write disjoint entries, or
      add to an entry atomically. *)

From Stdlib Require Import ZArith Lia Bool List QArith Qround.
From Stdlib Require Import Floats.SpecFloat.
From stdpp Require Import base list.

Local Open Scope Z_scope.

(** ** Outcomes of a C computation *)

Inductive result (A : Type) : Type :=
| Ok (a : A)      (* normal completion *)
| Undefined       (* undefined behaviour of the C program *)
| OutOfFuel.      (* the embedding ran out of fuel *)

Arguments Ok {A} a.
Arguments Undefined {A}.
Arguments OutOfFuel {A}.

Definition bind {A B : Type} (m : result A) (k : A -> result B) : result B :=
  match m with
  | Ok a => k a
  | Undefined => Undefined
  | OutOfFuel => OutOfFuel
  end.

Notation "x <- m ; k" := (bind m (fun x => k))
  (at level 20, m at level 100, k at level 200, only parsing).
Notation "' p <- m ; k" := (bind m (fun x => let 'p := x in k))
  (at level 20, p pattern, m at level 100, k at level 200, only parsing).

(** ** Arrays: heap blocks indexed by a C integer *)

Definition rd {A : Type} (a : list A) (i : Z) : result A :=
  if i <? 0 then Undefined
  else match a !! Z.to_nat i with
       | Some x => Ok x
       | None => Undefined
       end.

Definition wr {A : Type} (a : list A) (i : Z) (v : A) : result (list A) :=
  if (0 <=? i) && (i <? Z.of_nat (length a))
  then Ok (<[Z.to_nat i := v]> a)
  else Undefined.

(** [for (i = lo; i < hi; i++) body]: the counter is an [int] that never
    exceeds [hi], so it cannot overflow. *)
Fixpoint for_iter {St : Type} (n : nat) (i : Z)
    (body : Z -> St -> result St) (s : St) : result St :=
  match n with
  | O => Ok s
  | S n' => s' <- body i s ; for_iter n' (i + 1) body s'
  end.

Definition for_range {St : Type} (lo hi : Z)
    (body : Z -> St -> result St) (s : St) : result St :=
  for_iter (Z.to_nat (hi - lo)) lo body s.

(** ** Floating point *)

Definition float : Type := spec_float.

Definition fzero : float := S754_zero false.
Definition fadd : float -> float -> float := SFadd 24 128.
Definition fsub : float -> float -> float := SFsub 24 128.
Definition fmul : float -> float -> float := SFmul 24 128.
Definition fdiv : float -> float -> float := SFdiv 24 128.
Definition flt : float -> float -> bool := SFltb.

(** The binary32 number nearest to [m * 2^e]. *)
Definition f32 (m e : Z) : float := binary_normalize 24 128 m e false.

(** Conversion [(float) n] of an [int]. *)
Definition float_of_int (n : Z) : float := f32 n 0.

(** Promotion of a [float] to [double]: exact, the mantissa is widened. *)
Definition double_of_float (x : float) : spec_float :=
  match x with
  | S754_finite s m e => binary_round 53 1024 s m e
  | _ => x
  end.

Definition int_min : Z := - 2 ^ 31.
Definition int_max : Z := 2 ^ 31 - 1.

(** The product [a * b] of two [int]: undefined outside [int]. *)
Definition int_mul (a b : Z) : result Z :=
  if (int_min <=? a * b) && (a * b <=? int_max) then Ok (a * b)
  else Undefined.

(** Conversion [(int) x] of a [double]: truncation toward zero; the
    conversion of a NaN, an infinity or a value outside [int] is
    undefined. *)
Definition int_of_double (x : spec_float) : result Z :=
  match x with
  | S754_zero _ => Ok 0
  | S754_finite s m e =>
      let z := cond_Zopp s (Z.shiftl (Z.pos m) e) in
      if (int_min <=? z) && (z <=? int_max) then Ok z else Undefined
  | _ => Undefined
  end.

Module KMeans.

(** [euclid_dist_2]: square of the Euclidean distance. *)
Definition euclid_dist_2 (numdims : Z) (coord1 coord2 : list float)
    : result float :=
  for_range 0 numdims
    (fun i ans =>
       a <- rd coord1 i ;
       b <- rd coord2 i ;
       Ok (fadd ans (fmul (fsub a b) (fsub a b))))
    fzero.

(** [find_nearest_cluster]: the helper of the source file; [omp_kmeans]
    does not call it but carries an inlined copy of its loop. *)
Definition find_nearest_cluster (numClusters numCoords : Z)
    (object : list float) (clusters : list (list float)) : result Z :=
  c0 <- rd clusters 0 ;
  min_dist <- euclid_dist_2 numCoords object c0 ;
  '(index, _) <-
    for_range 1 numClusters
      (fun i '(index, min_dist) =>
         ci <- rd clusters i ;
         dist <- euclid_dist_2 numCoords object ci ;
         if flt dist min_dist then Ok (i, dist) else Ok (index, min_dist))
      (0, min_dist) ;
  Ok index.

(** The scalar arguments of [omp_kmeans] and the OpenMP environment. *)
Record config : Type := {
  numCoords : Z;
  numObjs : Z;
  numClusters : Z;
  nthreads : Z;          (* [omp_get_max_threads()] *)
  tid_of : Z -> Z        (* [omp_get_thread_num()] of the worker that runs
                            iteration [i] of the work-shared loop *)
}.

(** The memory [omp_kmeans] works on. *)
Record heap : Type := {
  objects : list (list float);            (* in: [numObjs][numCoords] *)
  membership : list Z;                    (* out: [numObjs] *)
  clusters : list (list float);           (* [numClusters][numCoords] *)
  newClusterSize : list Z;                (* [numClusters] *)
  newClusters : list (list float);        (* [numClusters][numCoords] *)
  local_newClusterSize : list Z;          (* one block of
                                             [nthreads * numClusters] *)
  local_newClusters : list (list float);  (* one block of
                                             [nthreads * numClusters]
                                             pointers, each to a block of
                                             [numCoords] *)
  delta : Z;
  loop : Z
}.

Definition set_membership (h : heap) (v : list Z) : heap :=
  {| objects := objects h; membership := v; clusters := clusters h;
     newClusterSize := newClusterSize h; newClusters := newClusters h;
     local_newClusterSize := local_newClusterSize h;
     local_newClusters := local_newClusters h;
     delta := delta h; loop := loop h |}.

Definition set_clusters (h : heap) (v : list (list float)) : heap :=
  {| objects := objects h; membership := membership h; clusters := v;
     newClusterSize := newClusterSize h; newClusters := newClusters h;
     local_newClusterSize := local_newClusterSize h;
     local_newClusters := local_newClusters h;
     delta := delta h; loop := loop h |}.

Definition set_newClusterSize (h : heap) (v : list Z) : heap :=
  {| objects := objects h; membership := membership h;
     clusters := clusters h;
     newClusterSize := v; newClusters := newClusters h;
     local_newClusterSize := local_newClusterSize h;
     local_newClusters := local_newClusters h;
     delta := delta h; loop := loop h |}.

Definition set_newClusters (h : heap) (v : list (list float)) : heap :=
  {| objects := objects h; membership := membership h;
     clusters := clusters h;
     newClusterSize := newClusterSize h; newClusters := v;
     local_newClusterSize := local_newClusterSize h;
     local_newClusters := local_newClusters h;
     delta := delta h; loop := loop h |}.

Definition set_local_newClusterSize (h : heap) (v : list Z) : heap :=
  {| objects := objects h; membership := membership h;
     clusters := clusters h;
     newClusterSize := newClusterSize h; newClusters := newClusters h;
     local_newClusterSize := v;
     local_newClusters := local_newClusters h;
     delta := delta h; loop := loop h |}.

Definition set_local_newClusters (h : heap) (v : list (list float)) : heap :=
  {| objects := objects h; membership := membership h;
     clusters := clusters h;
     newClusterSize := newClusterSize h; newClusters := newClusters h;
     local_newClusterSize := local_newClusterSize h;
     local_newClusters := v;
     delta := delta h; loop := loop h |}.

Definition set_delta (h : heap) (v : Z) : heap :=
  {| objects := objects h; membership := membership h;
     clusters := clusters h;
     newClusterSize := newClusterSize h; newClusters := newClusters h;
     local_newClusterSize := local_newClusterSize h;
     local_newClusters := local_newClusters h;
     delta := v; loop := loop h |}.

Definition set_loop (h : heap) (v : Z) : heap :=
  {| objects := objects h; membership := membership h;
     clusters := clusters h;
     newClusterSize := newClusterSize h; newClusters := newClusters h;
     local_newClusterSize := local_newClusterSize h;
     local_newClusters := local_newClusters h;
     delta := delta h; loop := v |}.

(** Two-level accesses [a[i][j]] through a row pointer. *)
Definition rd2 {A : Type} (a : list (list A)) (i j : Z) : result A :=
  row <- rd a i ; rd row j.

Definition wr2 {A : Type} (a : list (list A)) (i j : Z) (v : A)
    : result (list (list A)) :=
  row <- rd a i ; row' <- wr row j v ; wr a i row'.

(** The slot of [local_...[tid][index]] in its block: the row pointer
    [local_...[tid]] is read from an array of [nthreads] pointers and
    points [tid * numClusters] elements into the block. *)
Definition local_slot (c : config) (tid index : Z) : result Z :=
  if (0 <=? tid) && (tid <? nthreads c)
  then Ok (tid * numClusters c + index)
  else Undefined.

(** The search for the nearest centre as [omp_kmeans] inlines it, for the
    object of index [i] (source lines 166 to 179). *)
Definition nearest_inlined (c : config) (i : Z) (coord1 : list float)
    (clusters : list (list float)) : result Z :=
  c0 <- rd clusters 0 ;
  min_dist <- euclid_dist_2 (numCoords c) coord1 c0 ;
  '(index, _) <-
    for_range 1 (numClusters c)
      (fun j '(index, min_dist) =>
         coord2 <- rd clusters j ;
         dist <-
           for_range 0 (numCoords c)
             (fun k dist =>
                a <- rd coord1 k ;
                b <- rd coord2 k ;
                Ok (fadd dist (fmul (fsub a b) (fsub a b))))
             fzero ;
         if flt dist min_dist then Ok (i, dist) else Ok (index, min_dist))
      (0, min_dist) ;
  Ok index.

(** One iteration of the work-shared loop (source lines 165 to 187). *)
Definition assign_point (c : config) (i : Z) (h : heap) : result heap :=
  let tid := tid_of c i in
  coord1 <- rd (objects h) i ;
  index <- nearest_inlined c i coord1 (clusters h) ;
  m <- rd (membership h) i ;
  let h := set_delta h (delta h + (if Z.lxor m index =? 0 then 1 else 0)) in
  mem' <- wr (membership h) i index ;
  let h := set_membership h mem' in
  slot <- local_slot c tid index ;
  n <- rd (local_newClusterSize h) slot ;
  sizes' <- wr (local_newClusterSize h) slot (n + 1) ;
  let h := set_local_newClusterSize h sizes' in
  for_range 0 (numCoords c)
    (fun j h =>
       slot <- local_slot c tid index ;
       acc <- rd2 (local_newClusters h) slot j ;
       x <- rd2 (objects h) i j ;
       sums' <- wr2 (local_newClusters h) slot j (fadd acc x) ;
       Ok (set_local_newClusters h sums'))
    h.

(** The parallel region (source lines 156 to 189). *)
Definition assign_phase (c : config) (h : heap) : result heap :=
  for_range 0 (numObjs c) (assign_point c) h.

(** The array reduction by the main thread (source lines 192 to 201). *)
Definition reduce_phase (c : config) (h : heap) : result heap :=
  for_range 0 (numClusters c)
    (fun i h =>
       for_range 0 (nthreads c)
         (fun j h =>
            slot <- local_slot c j i ;
            total <- rd (newClusterSize h) i ;
            part <- rd (local_newClusterSize h) slot ;
            totals' <- wr (newClusterSize h) i (total + part) ;
            let h := set_newClusterSize h totals' in
            parts' <- wr (local_newClusterSize h) slot 0 ;
            let h := set_local_newClusterSize h parts' in
            for_range 0 (numCoords c)
              (fun k h =>
                 sum <- rd2 (newClusters h) i k ;
                 part <- rd2 (local_newClusters h) slot k ;
                 sums' <- wr2 (newClusters h) i k (fadd sum part) ;
                 let h := set_newClusters h sums' in
                 parts' <- wr2 (local_newClusters h) slot k fzero ;
                 Ok (set_local_newClusters h parts'))
              h)
         h)
    h.

(** Averaging and replacement of the centres (source lines 204 to 211). *)
Definition update_phase (c : config) (h : heap) : result heap :=
  for_range 0 (numClusters c)
    (fun i h =>
       h <-
         for_range 0 (numCoords c)
           (fun j h =>
              n <- rd (newClusterSize h) i ;
              h <-
                (if n >? 1 then
                   sum <- rd2 (newClusters h) i j ;
                   n <- rd (newClusterSize h) i ;
                   cs' <- wr2 (clusters h) i j (fdiv sum (float_of_int n)) ;
                   Ok (set_clusters h cs')
                 else Ok h) ;
              sums' <- wr2 (newClusters h) i j fzero ;
              Ok (set_newClusters h sums'))
           h ;
       sizes' <- wr (newClusterSize h) i 0 ;
       Ok (set_newClusterSize h sizes'))
    h.

(** One pass of the loop body up to the averaging (source lines 154 to
    211): [delta] is left with the count of the parallel region. *)
Definition iteration (c : config) (h : heap) : result heap :=
  let h := set_delta h 0 in
  h <- assign_phase c h ;
  h <- reduce_phase c h ;
  update_phase c h.

(** The body of the [do ... while] loop (source lines 154 to 212); it
    ends with [delta *= magnitude], a product of two [int]. *)
Definition loop_body (c : config) (magnitude : Z) (h : heap) : result heap :=
  h <- iteration c h ;
  d <- int_mul (delta h) magnitude ;
  Ok (set_delta h d).

(** The loop test [delta > numObjs && loop++ < 500] (source line 214):
    whether the loop goes on, and the value [loop] is left with. *)
Definition loop_test (numObjs delta loop : Z) : bool * Z :=
  if delta >? numObjs
  then (loop <? 500, loop + 1)
  else (false, loop).

(** The [do ... while] loop around a body; the second component counts
    the executions of the body. *)
Fixpoint do_while (fuel : nat) (body : heap -> result heap) (numObjs : Z)
    (h : heap) : result (heap * nat) :=
  match fuel with
  | O => OutOfFuel
  | S fuel' =>
      h <- body h ;
      let '(again, l) := loop_test numObjs (delta h) (loop h) in
      let h := set_loop h l in
      if again then
        '(h, n) <- do_while fuel' body numObjs h ; Ok (h, S n)
      else Ok (h, 1%nat)
  end.

(** [magnitude = (int)(1.0 / threshold)]: the quotient is a [double]. *)
Definition magnitude_of (threshold : float) : result Z :=
  int_of_double
    (SFdiv 53 1024 (binary_normalize 53 1024 1 0 false)
       (double_of_float threshold)).

(** A block of [n] elements, all [x]. *)
Definition alloc {A : Type} (n : Z) (x : A) : list A :=
  replicate (Z.to_nat n) x.

(** The allocations and initialisations before the loop (source lines 95
    to 150).  [malloc] and [calloc] are taken to succeed, and the array
    [membership] of the caller to have [numObjs] elements.  The row
    pointers [clusters[0]], [newClusters[0]], [local_newClusterSize[0]]
    and [local_newClusters[0]] are stored into blocks of [numClusters]
    and of [nthreads] pointers: with [numClusters <= 0] or
    [nthreads <= 0] the store is outside the block, or an [assert] on
    the allocation stops the program, and there is no result.  The blocks
    of [clusters] and of [membership] hold indeterminate values at first;
    every cell of them is written by the two initialisation loops before
    it is read.  The argument [is_perform_atomic] only decides which
    blocks are freed on return and is left out. *)

Definition init_heap (c : config) (objs : list (list float)) : result heap :=
  let K := numClusters c in
  let M := numCoords c in
  if (K <=? 0) || (nthreads c <=? 0) then Undefined else
  let h :=
    {| objects := objs;
       membership := alloc (numObjs c) 0;
       clusters := alloc K (alloc M fzero);
       newClusterSize := alloc K 0;
       newClusters := alloc K (alloc M fzero);
       local_newClusterSize := alloc (nthreads c * K) 0;
       local_newClusters := alloc (nthreads c * K) (alloc M fzero);
       delta := 0;
       loop := 0 |} in
  h <-
    for_range 0 K
      (fun i h =>
         for_range 0 M
           (fun j h =>
              x <- rd2 (objects h) i j ;
              cs' <- wr2 (clusters h) i j x ;
              Ok (set_clusters h cs'))
           h)
      h ;
  for_range 0 (numObjs c)
    (fun i h =>
       mem' <- wr (membership h) i (-1) ;
       Ok (set_membership h mem'))
    h.

(** What a call leaves behind: the final memory (the returned [clusters],
    the [membership] array of the caller, the [objects] of the caller)
    and the number of executions of the loop body. *)
Definition omp_kmeans (c : config) (objs : list (list float))
    (threshold : float) : result (heap * nat) :=
  magnitude <- magnitude_of threshold ;
  h <- init_heap c objs ;
  do_while 502 (loop_body c magnitude) (numObjs c) h.

End KMeans.

Import KMeans.

(** ** Vocabulary of the claims about [omp_kmeans] *)

(** The threshold [1.0]. *)
Definition fone : float := f32 1 0.

(** The inputs the interface accepts, in the words of the specification:
    the points are not empty and each has [numCoords] coordinates,
    [0 < numClusters <= number of points], [numCoords > 0], and the
    threshold lies in (0, 1]. *)
Record valid_input (c : config) (objs : list (list float))
    (threshold : float) : Prop := {
  vi_points : 0 < numObjs c /\ Z.of_nat (length objs) = numObjs c;
  vi_rows : Forall (fun row => Z.of_nat (length row) = numCoords c) objs;
  vi_clusters : 0 < numClusters c <= numObjs c;
  vi_coords : 0 < numCoords c;
  vi_threshold : flt fzero threshold = true /\ SFleb threshold fone = true
}.

(** The squared distance from the object [o] to the centre [j]. *)
Definition sq_dist (M : Z) (o : list float) (cl : list (list float)) (j : Z)
    : result float :=
  cj <- rd cl j ; euclid_dist_2 M o cj.

(** The assignment the specification asks for: [index] is a centre at
    minimum squared distance from [o], and the lowest such index. *)
Definition nearest_centre (K M : Z) (o : list float)
    (cl : list (list float)) (index : Z) : Prop :=
  0 <= index < K /\
  exists dmin, sq_dist M o cl index = Ok dmin /\
    forall j d, 0 <= j < K -> sq_dist M o cl j = Ok d ->
      flt d dmin = false /\ (j < index -> flt dmin d = true).

(** The count the specification asks of [delta]: the number of points
    whose membership in [new] differs from the one in [old]. *)
Definition changed_count (old new : list Z) : Z :=
  Z.of_nat (length (List.filter (fun p => negb (fst p =? snd p))
                      (combine old new))).




(** Inputs of the examples: three points on a line, two clusters, with
    four workers (iteration [i] on worker [i]) or with one worker; and
    three points of which the last is nearest to the first. *)
Definition point (x : Z) : list float := [float_of_int x].
Definition three_points : list (list float) := [point 0; point 10; point 11].
Definition four_workers : config :=
  {| numCoords := 1; numObjs := 3; numClusters := 2;
     nthreads := 4; tid_of := fun i => i |}.
Definition one_worker : config :=
  {| numCoords := 1; numObjs := 3; numClusters := 2;
     nthreads := 1; tid_of := fun _ => 0 |}.
Definition near_points : list (list float) := [point 0; point 10; point 1].

(** ** Vocabulary of the proofs about [omp_kmeans] *)

(** The outcome is not an exhausted fuel. *)
Definition terminates {A : Type} (m : result A) : Prop := m <> OutOfFuel.

(** The parallel region writes [membership], [delta] and the workers'
    accumulators, and nothing else. *)
Record assign_frame (h h' : heap) (n : Z) : Prop := {
  af_objects : objects h' = objects h;
  af_clusters : clusters h' = clusters h;
  af_newClusterSize : newClusterSize h' = newClusterSize h;
  af_newClusters : newClusters h' = newClusters h;
  af_loop : loop h' = loop h;
  af_membership : length (membership h') = length (membership h);
  af_delta : delta h <= delta h' <= delta h + n
}.

(** The reduction writes the accumulators only. *)
Record reduce_frame (h h' : heap) : Prop := {
  rf_objects : objects h' = objects h;
  rf_membership : membership h' = membership h;
  rf_clusters : clusters h' = clusters h;
  rf_delta : delta h' = delta h;
  rf_loop : loop h' = loop h
}.

(** The averaging writes [clusters] and the global accumulators only. *)
Record update_frame (h h' : heap) : Prop := {
  uf_objects : objects h' = objects h;
  uf_membership : membership h' = membership h;
  uf_local_newClusterSize : local_newClusterSize h' = local_newClusterSize h;
  uf_local_newClusters : local_newClusters h' = local_newClusters h;
  uf_delta : delta h' = delta h;
  uf_loop : loop h' = loop h
}.

(** The centre [i] has received its new coordinate [j]. *)
Definition averaged (h t : heap) (i j : Z) : Prop :=
  exists n sum,
    rd (newClusterSize h) i = Ok n /\
    rd2 (newClusters h) i j = Ok sum /\
    rd2 (clusters t) i j =
      (if n >? 1 then Ok (fdiv sum (float_of_int n))
       else rd2 (clusters h) i j).

(** Rows from [k] on are as in [h]; rows below [k] are averaged. *)
Record update_inv (c : config) (h t : heap) (k : Z) : Prop := {
  ui_sizes : forall i, k <= i ->
    rd (newClusterSize t) i = rd (newClusterSize h) i;
  ui_sums : forall i j, k <= i ->
    rd2 (newClusters t) i j = rd2 (newClusters h) i j;
  ui_clusters : forall i j, k <= i ->
    rd2 (clusters t) i j = rd2 (clusters h) i j;
  ui_done : forall i j, 0 <= i < k -> 0 <= j < numCoords c ->
    averaged h t i j
}.

(** Within row [i]: columns from [l] on are as in [t]. *)
Record row_inv (c : config) (h t u : heap) (i l : Z) : Prop := {
  ri_sizes : newClusterSize u = newClusterSize t;
  ri_sums : forall i' j, i' <> i \/ l <= j ->
    rd2 (newClusters u) i' j = rd2 (newClusters t) i' j;
  ri_clusters : forall i' j, i' <> i \/ l <= j ->
    rd2 (clusters u) i' j = rd2 (clusters t) i' j;
  ri_done : forall j, 0 <= j < l -> averaged h u i j
}.

(** The number of indices below [n] at which [old] and [new] hold the
    same value. *)
Fixpoint same_count (old new : list Z) (n : nat) : Z :=
  match n with
  | O => 0
  | S n' =>
      same_count old new n' + (if nth n' old 0 =? nth n' new 0 then 1 else 0)
  end.

(** ** Unsigned arithmetic and float buffers of the matrix routines *)

Definition u32 (z : Z) : Z := Z.modulo z (2 ^ 32).      (* [unsigned int] *)
Definition size_t (z : Z) : Z := Z.modulo z (2 ^ 64).   (* [size_t], LP64 *)

(** [for (unsigned x = lo; x < hi; x += step) body].  The loop is given
    [hi] rounds; it needs more only when its counter has wrapped around,
    and then there is no result. *)
Fixpoint for_u32_fuel {St : Type} (fuel : nat) (x hi step : Z)
    (body : Z -> St -> option St) (s : St) : option St :=
  if x <? hi then
    match fuel with
    | O => None
    | S fuel' =>
        match body x s with
        | Some s' => for_u32_fuel fuel' (u32 (x + step)) hi step body s'
        | None => None
        end
    end
  else Some s.

Definition for_u32 {St : Type} (lo hi step : Z)
    (body : Z -> St -> option St) (s : St) : option St :=
  for_u32_fuel (Z.to_nat hi) lo hi step body s.

Section Buffers.
Context {R : Type}.
Variable rO : R.
Variable radd rmul : R -> R -> R.

(** A [float *]: the elements of the block by index. *)
Definition buffer : Type := Z -> R.

Definition store (p : buffer) (i : Z) (v : R) : buffer :=
  fun k => if k =? i then v else p k.

(** [memset(p, 0, nbytes)]: the elements that lie within the first
    [nbytes] bytes become zero. *)
Definition memset_zero (p : buffer) (nbytes : Z) : buffer :=
  fun k => if (0 <=? k) && (4 * k + 4 <=? nbytes) then rO else p k.

(** [p[i] += v] *)
Definition add_to (p : buffer) (i : Z) (v : R) : buffer :=
  store p i (radd (p i) v).

(** The entry the claim asks for: the sum of [A[i][k] * B[k][j]] over
    [k < n], added up from zero in the order of [k]. *)
Fixpoint partial_sum (f : Z -> R) (n : nat) : R :=
  match n with
  | O => rO
  | S n' => radd (partial_sum f n') (f (Z.of_nat n'))
  end.

Definition product_term (A B : buffer) (dim i j k : Z) : R :=
  rmul (A (i * dim + k)) (B (k * dim + j)).

Definition product_entry (A B : buffer) (dim i j : Z) : R :=
  partial_sum (product_term A B dim i j) (Z.to_nat dim).

(** How far the sum of each entry has got: [g i j] terms of the entry
    [(i, j)] are in [C], and [C] is [C0] outside the matrix. *)
Definition tally : Type := Z -> Z -> Z.

Definition represents (A B C0 : buffer) (dim : Z) (g : tally)
    (C : buffer) : Prop :=
  (forall i j, 0 <= i < dim -> 0 <= j < dim ->
     0 <= g i j /\
     C (i * dim + j) =
       partial_sum (product_term A B dim i j) (Z.to_nat (g i j))) /\
  (forall idx, ~ 0 <= idx < dim * dim -> C idx = C0 idx).

(** [n] more terms for the entries selected by [sel]. *)
Definition bump_if (g : tally) (sel : Z -> Z -> bool) (n : Z)
    : tally :=
  fun i j => if sel i j then g i j + n else g i j.

Definition entry (i j : Z) : Z -> Z -> bool :=
  fun i' j' => (i' =? i) && (j' =? j).
End Buffers.

(** [matrix_mul/omp/matrix_mul.cpp] *)
Module MatrixMul.
Section Code.
Context {R : Type}.
Variable rO : R.
Variable radd rmul : R -> R -> R.

(** The loop over [count] in [matrix_multiplication_subblock] (source
    lines 109 to 169), from [count]; [count] grows in every round, so
    [block_size] rounds are enough. *)
Fixpoint subblock_row (fuel : nat) (A : buffer) (m1 : Z) (B : buffer)
    (m2 : Z) (result : Z) (block_size sq_dimension : Z) (col row : Z)
    (count : Z) (C : buffer) : option buffer :=
  if count <? block_size then
    match fuel with
    | O => None
    | S fuel' =>
        let a n :=
          A (m1 + u32 (u32 (u32 (row * sq_dimension) + count) + n)) in
        let b n :=
          B (m2 + u32 (u32 (u32 (count + n) * sq_dimension) + col)) in
        let a0 := A (m1 + u32 (u32 (row * sq_dimension) + count)) in
        let b0 := B (m2 + u32 (u32 (count * sq_dimension) + col)) in
        let r := result + u32 (u32 (row * sq_dimension) + col) in
        if u32 (count + 4) <? block_size then
          subblock_row fuel' A m1 B m2 result block_size sq_dimension
            col row (u32 (count + 4))
            (add_to radd C r
               (radd (radd (radd (rmul a0 b0) (rmul (a 1) (b 1)))
                        (rmul (a 2) (b 2)))
                  (rmul (a 3) (b 3))))
        else
          subblock_row fuel' A m1 B m2 result block_size sq_dimension
            col row (u32 (count + 1))
            (add_to radd C r (rmul a0 b0))
    end
  else Some C.

(** [matrix_multiplication_subblock]: [m1], [m2] and [result] point into
    the blocks [A], [B] and [C]. *)
Definition matrix_multiplication_subblock (A : buffer) (m1 : Z)
    (B : buffer) (m2 : Z) (C : buffer) (result : Z)
    (block_size sq_dimension : Z) : option buffer :=
  for_u32 0 block_size 1
    (fun col C =>
       for_u32 0 block_size 1
         (fun row C =>
            subblock_row (Z.to_nat block_size) A m1 B m2 result
              block_size sq_dimension col row 0 C)
         C)
    C.

(** [while (sq_dimension % blk_range != 0) blk_range--;] from
    [blk_range]; the search stops at 1 at the latest. *)
Fixpoint find_blk_range (sq_dimension : Z) (blk_range : nat) : Z :=
  match blk_range with
  | O => 0
  | S b =>
      if Z.modulo sq_dimension (Z.of_nat blk_range) =? 0
      then Z.of_nat blk_range
      else find_blk_range sq_dimension b
  end.

(** The branch for [sq_dimension >= 256] (source lines 43 to 76). *)
Definition blocked_loops (A B C : buffer) (sq_dimension : Z)
    : option buffer :=
  let blk_range := find_blk_range sq_dimension 128 in
  for_u32 0 sq_dimension blk_range
    (fun j C =>
       for_u32 0 sq_dimension blk_range
         (fun i C =>
            for_u32 0 sq_dimension blk_range
              (fun k C =>
                 matrix_multiplication_subblock
                   A (u32 (u32 (i * sq_dimension) + k))
                   B (u32 (u32 (k * sq_dimension) + j))
                   C (u32 (u32 (i * sq_dimension) + j))
                   blk_range sq_dimension)
              C)
         C)
    C.

(** The branch for [sq_dimension < 256] (source lines 81 to 89): the
    triple loop. *)
Definition naive_loops (A B C : buffer) (sq_dimension : Z)
    : option buffer :=
  for_u32 0 sq_dimension 1
    (fun i C =>
       for_u32 0 sq_dimension 1
         (fun j C =>
            for_u32 0 sq_dimension 1
              (fun k C =>
                 Some (add_to radd C (u32 (u32 (i * sq_dimension) + j))
                         (rmul (A (u32 (u32 (i * sq_dimension) + k)))
                               (B (u32 (u32 (k * sq_dimension) + j))))))
              C)
         C)
    C.

(** [sizeof(float) * sq_dimension * sq_dimension], in [size_t]. *)
Definition result_bytes (sq_dimension : Z) : Z :=
  size_t (size_t (4 * sq_dimension) * sq_dimension).

Definition matrix_multiplication (sq_matrix_1 sq_matrix_2
    sq_matrix_result : buffer) (sq_dimension : Z) : option buffer :=
  let C := memset_zero rO sq_matrix_result (result_bytes sq_dimension) in
  if 256 <=? sq_dimension
  then blocked_loops sq_matrix_1 sq_matrix_2 C sq_dimension
  else naive_loops sq_matrix_1 sq_matrix_2 C sq_dimension.

(** The triple loop on its own, for every dimension: the reference the
    blocked routines are compared with. *)
Definition naive_multiplication (A B C : buffer) (sq_dimension : Z)
    : option buffer :=
  naive_loops A B (memset_zero rO C (result_bytes sq_dimension))
    sq_dimension.
End Code.
End MatrixMul.

(** [matrix_mul/omp/optimization/matrix_mul4.cc] *)
Module MatrixMul4.
Section Code.
Context {R : Type}.
Variable rO : R.
Variable radd rmul : R -> R -> R.

(** [sq_dimension*sq_dimension*sizeof(float)]: the product of the two
    [unsigned int] is an [unsigned int]. *)
Definition result_bytes (sq_dimension : Z) : Z :=
  size_t (u32 (sq_dimension * sq_dimension) * 4).

Definition matrix_multiplication (sq_matrix_1 sq_matrix_2
    sq_matrix_result : buffer) (sq_dimension : Z) : option buffer :=
  let C := memset_zero rO sq_matrix_result (result_bytes sq_dimension) in
  let block_size := 64 in
  for_u32 0 sq_dimension block_size
    (fun kk C =>
       for_u32 0 sq_dimension block_size
         (fun jj C =>
            for_u32 0 sq_dimension 1
              (fun i C =>
                 for_u32 kk (Z.min sq_dimension (u32 (kk + block_size))) 1
                   (fun k C =>
                      for_u32 jj
                        (Z.min sq_dimension (u32 (jj + block_size))) 1
                        (fun j C =>
                           Some
                             (add_to radd C
                                (u32 (u32 (sq_dimension * i) + j))
                                (rmul
                                   (sq_matrix_1
                                      (u32 (u32 (sq_dimension * i) + k)))
                                   (sq_matrix_2
                                      (u32 (u32 (sq_dimension * k) + j))))))
                        C)
                   C)
              C)
         C)
    C.
End Code.
End MatrixMul4.

(** The matrices [[1 2] [3 4]] and [[5 6] [7 8]], row by row. *)
Definition two_by_two_a : @buffer Z := fun k => nth (Z.to_nat k) [1; 2; 3; 4] 0.
Definition two_by_two_b : @buffer Z := fun k => nth (Z.to_nat k) [5; 6; 7; 8] 0.


(** ** Vocabulary of the further properties *)

(** A number whose sign bit is clear, or no number at all. *)
Definition sign_clear (x : float) : Prop :=
  match x with
  | S754_zero s | S754_infinity s | S754_finite s _ _ => s = false
  | S754_nan => True
  end.

(** Two computations end the same way: both with a result, the results
    related by [Rel], or both undefined, or both out of fuel. *)
Definition same_outcome {A B : Type} (Rel : A -> B -> Prop)
    (x : result A) (y : result B) : Prop :=
  match x, y with
  | Ok a, Ok b => Rel a b
  | Undefined, Undefined => True
  | OutOfFuel, OutOfFuel => True
  | _, _ => False
  end.

(** The heap the allocations give, before the two initialisation loops. *)
Definition fresh_heap (c : config) (objs : list (list float)) : heap :=
  {| objects := objs;
     membership := alloc (numObjs c) 0;
     clusters := alloc (numClusters c) (alloc (numCoords c) fzero);
     newClusterSize := alloc (numClusters c) 0;
     newClusters := alloc (numClusters c) (alloc (numCoords c) fzero);
     local_newClusterSize := alloc (nthreads c * numClusters c) 0;
     local_newClusters :=
       alloc (nthreads c * numClusters c) (alloc (numCoords c) fzero);
     delta := 0;
     loop := 0 |}.

(** The sum of a block of counts. *)
Definition total (l : list Z) : Z := fold_right Z.add 0 l.

(** What the reduction keeps and reaches; [D] tells which slots of the
    workers are known to be zero. *)
Record reduced (c : config) (h t : heap) (D : Z -> Z -> Prop)
    (E : Z -> Z -> Z -> Prop) : Prop := {
  red_total :
    total (newClusterSize t) + total (local_newClusterSize t)
    = total (newClusterSize h) + total (local_newClusterSize h);
  red_length :
    length (local_newClusterSize t) = length (local_newClusterSize h);
  red_sizes : forall w i, D w i ->
    rd (local_newClusterSize t) (w * numClusters c + i) = Ok 0;
  red_sums : forall w i k, E w i k ->
    rd2 (local_newClusters t) (w * numClusters c + i) k = Ok fzero
}.

(** [C] is [Cin] with, for every entry [(i, j)] of the matrix, the first
    [g i j] products from column [kb] of [A] and row [kb] of [B] added. *)
Definition accumulated {R : Type} (rO : R) (radd rmul : R -> R -> R)
    (A B Cin : buffer) (dim kb : Z) (g : tally) (C : buffer) : Prop :=
  (forall i j, 0 <= i < dim -> 0 <= j < dim ->
     0 <= g i j /\
     C (i * dim + j) =
       radd (Cin (i * dim + j))
         (partial_sum rO radd
            (fun t => product_term rmul A B dim i j (kb + t))
            (Z.to_nat (g i j)))) /\
  (forall idx, ~ 0 <= idx < dim * dim -> C idx = Cin idx).


(** * Theorems *)

(** ** The outcome monad *)

Lemma bind_Ok {A B : Type} (m : result A) (k : A -> result B) (b : B) :
  bind m k = Ok b -> exists a, m = Ok a /\ k a = Ok b.
Proof. destruct m as [a| |]; simpl; intros H; try discriminate; eauto. Qed.

Ltac inv_bind H :=
  let a := fresh "v" in
  let E := fresh "E" in
  apply bind_Ok in H; destruct H as (a & E & H).

Ltac inv_ok H := injection H; clear H; intros; subst.

(** ** Reads and writes *)

Lemma rd_Ok {A : Type} (a : list A) (i : Z) (x : A) :
  rd a i = Ok x <-> 0 <= i /\ a !! Z.to_nat i = Some x.
Proof.
  unfold rd. destruct (Z.ltb_spec i 0) as [H0|H0].
  - split; [discriminate | lia].
  - destruct (a !! Z.to_nat i) eqn:E; split; intros H1;
      try discriminate; try (destruct H1; congruence).
    inv_ok H1. split; [lia | reflexivity].
Qed.

Lemma rd_bounds {A : Type} (a : list A) (i : Z) (x : A) :
  rd a i = Ok x -> 0 <= i < Z.of_nat (length a).
Proof.
  intros H. apply rd_Ok in H as [H0 H1]. apply lookup_lt_Some in H1. lia.
Qed.

Lemma rd_in_range {A : Type} (a : list A) (i : Z) :
  0 <= i < Z.of_nat (length a) -> exists x, rd a i = Ok x.
Proof.
  intros H. destruct (lookup_lt_is_Some_2 a (Z.to_nat i)) as [x Hx]; [lia|].
  exists x. apply rd_Ok. split; [lia | exact Hx].
Qed.

Lemma wr_Ok {A : Type} (a a' : list A) (i : Z) (v : A) :
  wr a i v = Ok a' ->
  0 <= i < Z.of_nat (length a) /\ a' = <[Z.to_nat i := v]> a.
Proof.
  unfold wr.
  destruct (Z.leb_spec 0 i) as [H0|H0],
           (Z.ltb_spec i (Z.of_nat (length a))) as [H1|H1];
    simpl; intros H; try discriminate.
  inv_ok H. split; [lia | reflexivity].
Qed.

Lemma wr_length {A : Type} (a a' : list A) (i : Z) (v : A) :
  wr a i v = Ok a' -> length a' = length a.
Proof. intros H. apply wr_Ok in H as [_ ->]. apply length_insert. Qed.

Lemma rd_wr_same {A : Type} (a a' : list A) (i : Z) (v : A) :
  wr a i v = Ok a' -> rd a' i = Ok v.
Proof.
  intros H. apply wr_Ok in H as [Hi ->]. apply rd_Ok. split; [lia|].
  apply list_lookup_insert_eq. lia.
Qed.

Lemma rd_wr_other {A : Type} (a a' : list A) (i j : Z) (v : A) :
  wr a i v = Ok a' -> j <> i -> rd a' j = rd a j.
Proof.
  intros H Hj. apply wr_Ok in H as [Hi ->]. unfold rd.
  destruct (Z.ltb_spec j 0) as [H0|H0]; [reflexivity|].
  rewrite list_lookup_insert_ne; [reflexivity | lia].
Qed.

Lemma rd2_wr2_same {A : Type} (a a' : list (list A)) (i j : Z) (v : A) :
  wr2 a i j v = Ok a' -> rd2 a' i j = Ok v.
Proof.
  unfold wr2, rd2. intros H. inv_bind H. inv_bind H.
  rewrite (rd_wr_same _ _ _ _ H). simpl. eapply rd_wr_same; eauto.
Qed.

Lemma rd2_wr2_other_row {A : Type} (a a' : list (list A)) (i j i' j' : Z)
    (v : A) :
  wr2 a i j v = Ok a' -> i' <> i -> rd2 a' i' j' = rd2 a i' j'.
Proof.
  unfold wr2, rd2. intros H Hi. inv_bind H. inv_bind H.
  rewrite (rd_wr_other _ _ _ _ _ H Hi). reflexivity.
Qed.

Lemma rd2_wr2_other_col {A : Type} (a a' : list (list A)) (i j j' : Z)
    (v : A) :
  wr2 a i j v = Ok a' -> j' <> j -> rd2 a' i j' = rd2 a i j'.
Proof.
  unfold wr2, rd2. intros H Hj. inv_bind H. inv_bind H.
  rewrite (rd_wr_same _ _ _ _ H), E. simpl. eapply rd_wr_other; eauto.
Qed.

(** ** Loops *)

Lemma for_iter_inv {St : Type} (P : Z -> St -> Prop)
    (body : Z -> St -> result St) (n : nat) :
  forall (i : Z) (s s' : St),
    (forall k t t', i <= k < i + Z.of_nat n -> P k t -> body k t = Ok t' ->
                    P (k + 1) t') ->
    P i s -> for_iter n i body s = Ok s' -> P (i + Z.of_nat n) s'.
Proof.
  induction n as [|n IH]; intros i s s' Hstep Hs H; simpl in H.
  - inv_ok H. replace (i + Z.of_nat 0) with i by lia. exact Hs.
  - inv_bind H.
    replace (i + Z.of_nat (S n)) with ((i + 1) + Z.of_nat n) by lia.
    apply (IH (i + 1) v s'); [| |exact H].
    + intros k t t' Hk. apply Hstep. lia.
    + apply (Hstep i s v); [lia | exact Hs | exact E].
Qed.

Lemma for_range_inv {St : Type} (P : Z -> St -> Prop)
    (body : Z -> St -> result St) (lo hi : Z) (s s' : St) :
  (forall k t t', lo <= k < hi -> P k t -> body k t = Ok t' -> P (k + 1) t') ->
  P lo s -> for_range lo hi body s = Ok s' -> P (Z.max lo hi) s'.
Proof.
  unfold for_range. intros Hstep Hs H.
  replace (Z.max lo hi) with (lo + Z.of_nat (Z.to_nat (hi - lo))) by lia.
  apply (for_iter_inv P body _ lo s s'); [|exact Hs|exact H].
  intros k t t' Hk. apply Hstep. lia.
Qed.

(** An invariant that does not mention the counter. *)
Lemma for_range_preserves {St : Type} (P : St -> Prop)
    (body : Z -> St -> result St) (lo hi : Z) (s s' : St) :
  (forall k t t', lo <= k < hi -> P t -> body k t = Ok t' -> P t') ->
  P s -> for_range lo hi body s = Ok s' -> P s'.
Proof.
  intros Hstep Hs H.
  apply (for_range_inv (fun _ => P) body lo hi s s'); auto.
Qed.

(** ** Termination of the phases: no fuel is involved *)


Lemma bind_terminates {A B : Type} (m : result A) (k : A -> result B) :
  terminates m -> (forall a, terminates (k a)) -> terminates (bind m k).
Proof. unfold terminates. destruct m; simpl; auto. Qed.

Lemma rd_terminates {A : Type} (a : list A) (i : Z) : terminates (rd a i).
Proof.
  unfold terminates, rd. destruct (i <? 0); [discriminate|].
  destruct (a !! Z.to_nat i); discriminate.
Qed.

Lemma wr_terminates {A : Type} (a : list A) (i : Z) (v : A) :
  terminates (wr a i v).
Proof. unfold terminates, wr. destruct (_ && _); discriminate. Qed.

Lemma for_iter_terminates {St : Type} (body : Z -> St -> result St)
    (n : nat) :
  (forall i s, terminates (body i s)) ->
  forall i s, terminates (for_iter n i body s).
Proof.
  intros Hb. induction n as [|n IH]; intros i s; simpl.
  - discriminate.
  - apply bind_terminates; auto.
Qed.

Lemma for_range_terminates {St : Type} (body : Z -> St -> result St)
    (lo hi : Z) (s : St) :
  (forall i s, terminates (body i s)) -> terminates (for_range lo hi body s).
Proof. intros Hb. apply for_iter_terminates. exact Hb. Qed.

Lemma Ok_terminates {A : Type} (a : A) : terminates (Ok a).
Proof. discriminate. Qed.

Lemma Undefined_terminates {A : Type} : terminates (@Undefined A).
Proof. discriminate. Qed.

Ltac no_timeout :=
  repeat first
    [ apply Ok_terminates
    | apply Undefined_terminates
    | apply rd_terminates
    | apply wr_terminates
    | apply bind_terminates; [|intros]
    | apply for_range_terminates; intros
    | match goal with
      | |- terminates (if ?b then _ else _) => destruct b
      | |- terminates (let '(_, _) := ?p in _) => destruct p
      end ].

Lemma rd2_terminates {A : Type} (a : list (list A)) (i j : Z) :
  terminates (rd2 a i j).
Proof. unfold rd2. no_timeout. Qed.

Lemma wr2_terminates {A : Type} (a : list (list A)) (i j : Z) (v : A) :
  terminates (wr2 a i j v).
Proof. unfold wr2. no_timeout. Qed.

Lemma local_slot_terminates (c : config) (tid index : Z) :
  terminates (local_slot c tid index).
Proof. unfold local_slot. no_timeout. Qed.

Lemma euclid_dist_2_terminates (n : Z) (a b : list float) :
  terminates (euclid_dist_2 n a b).
Proof. unfold euclid_dist_2. no_timeout. Qed.

Lemma nearest_inlined_terminates (c : config) (i : Z) (o : list float)
    (cl : list (list float)) :
  terminates (nearest_inlined c i o cl).
Proof.
  unfold nearest_inlined. no_timeout.
Qed.

Lemma assign_point_terminates (c : config) (i : Z) (h : heap) :
  terminates (assign_point c i h).
Proof.
  unfold assign_point. no_timeout;
    auto using nearest_inlined_terminates, local_slot_terminates,
      rd2_terminates, wr2_terminates.
Qed.

Lemma iteration_terminates (c : config) (h : heap) :
  terminates (iteration c h).
Proof.
  unfold iteration, assign_phase, reduce_phase, update_phase. no_timeout;
    auto using assign_point_terminates, local_slot_terminates,
      rd2_terminates, wr2_terminates.
Qed.

Lemma loop_body_terminates (c : config) (m : Z) (h : heap) :
  terminates (loop_body c m h).
Proof.
  unfold loop_body, int_mul.
  apply bind_terminates; [apply iteration_terminates | intros; no_timeout].
Qed.

Lemma init_heap_terminates (c : config) (objs : list (list float)) :
  terminates (init_heap c objs).
Proof.
  unfold init_heap. no_timeout; auto using rd2_terminates, wr2_terminates.
Qed.

Lemma magnitude_of_terminates (t : float) : terminates (magnitude_of t).
Proof.
  unfold magnitude_of, int_of_double.
  destruct (SFdiv _ _ _ _); no_timeout.
Qed.

(** ** What each phase leaves alone *)

Ltac step H :=
  repeat match type of H with
  | bind _ _ = Ok _ => inv_bind H
  | (if ?b then _ else _) = Ok _ => destruct b eqn:?
  | (let '(_, _) := ?p in _) = Ok _ => destruct p eqn:?
  | Ok _ = Ok _ => inv_ok H
  | Undefined = Ok _ => discriminate H
  | OutOfFuel = Ok _ => discriminate H
  end.

Ltac step_all :=
  repeat match goal with
  | H : bind _ _ = Ok _ |- _ => inv_bind H
  | H : (if ?b then _ else _) = Ok _ |- _ => destruct b eqn:?
  | H : (let '(_, _) := ?p in _) = Ok _ |- _ => destruct p eqn:?
  | H : Ok _ = Ok _ |- _ => inv_ok H
  | H : Undefined = Ok _ |- _ => discriminate H
  | H : OutOfFuel = Ok _ |- _ => discriminate H
  end.


Lemma assign_frame_refl (h : heap) : assign_frame h h 0.
Proof. split; auto; lia. Qed.

Lemma assign_frame_trans (h1 h2 h3 : heap) (n m : Z) :
  assign_frame h1 h2 n -> assign_frame h2 h3 m -> assign_frame h1 h3 (n + m).
Proof. intros [] []. split; try congruence; lia. Qed.

Lemma assign_point_frame (c : config) (i : Z) (h h' : heap) :
  assign_point c i h = Ok h' -> assign_frame h h' 1.
Proof.
  unfold assign_point. intros H. step H.
  match type of H with for_range _ _ _ ?h0 = _ => set (hs := h0) in * end.
  assert (Hs : assign_frame h hs 1).
  { subst hs. split; simpl; auto.
    - eapply wr_length; eauto.
    - destruct (_ =? _); lia. }
  replace 1 with (1 + 0) by lia. apply (assign_frame_trans _ _ _ _ _ Hs).
  revert H.
  apply (for_range_preserves (fun t => assign_frame hs t 0));
    [|apply assign_frame_refl].
  intros k t t' _ Ht Hb. step Hb.
  destruct Ht. split; simpl; auto.
Qed.

Lemma assign_phase_frame (c : config) (h h' : heap) :
  assign_phase c h = Ok h' -> assign_frame h h' (Z.max 0 (numObjs c)).
Proof.
  unfold assign_phase. intros H.
  apply (for_range_inv (fun k t => assign_frame h t k) _ _ _ _ _) in H; auto.
  - intros k t t' Hk Ht Hb. apply assign_point_frame in Hb.
    eapply assign_frame_trans; eauto.
  - apply assign_frame_refl.
Qed.


Lemma reduce_frame_refl (h : heap) : reduce_frame h h.
Proof. split; auto. Qed.

Lemma reduce_frame_trans (h1 h2 h3 : heap) :
  reduce_frame h1 h2 -> reduce_frame h2 h3 -> reduce_frame h1 h3.
Proof. intros [] []. split; congruence. Qed.

Lemma reduce_phase_frame (c : config) (h h' : heap) :
  reduce_phase c h = Ok h' -> reduce_frame h h'.
Proof.
  unfold reduce_phase.
  apply (for_range_preserves (reduce_frame h)); [|apply reduce_frame_refl].
  intros i t t' _ Ht.
  apply (for_range_preserves (reduce_frame h)); [|exact Ht].
  clear. intros j t t' _ Ht Hb. step Hb.
  revert Hb. apply (for_range_preserves (reduce_frame h)).
  - intros k u u' _ Hu Hb. step Hb. destruct Hu. split; simpl; auto.
  - destruct Ht. split; simpl; auto.
Qed.


Lemma update_frame_refl (h : heap) : update_frame h h.
Proof. split; auto. Qed.

Lemma update_phase_frame (c : config) (h h' : heap) :
  update_phase c h = Ok h' -> update_frame h h'.
Proof.
  unfold update_phase.
  apply (for_range_preserves (update_frame h)); [|apply update_frame_refl].
  intros i t t' _ Ht Hb. step Hb.
  assert (Hv : update_frame h v).
  { revert E. apply (for_range_preserves (update_frame h)); [|exact Ht].
    intros j u u' _ Hu Hb. step_all; destruct Hu; split; simpl; auto. }
  destruct Hv. split; simpl; auto.
Qed.

(** One pass of the body: the objects, the loop counter and the length of
    [membership] are kept, and [delta] is a count of objects. *)
Lemma iteration_frame (c : config) (h h' : heap) :
  iteration c h = Ok h' ->
  objects h' = objects h /\ loop h' = loop h /\
  length (membership h') = length (membership h) /\
  0 <= delta h' <= Z.max 0 (numObjs c).
Proof.
  unfold iteration. intros H. step H.
  apply assign_phase_frame in E as [].
  apply reduce_phase_frame in E0 as [].
  apply update_phase_frame in H as [].
  simpl in *. repeat split; try congruence; lia.
Qed.

(** ** The [do ... while] loop *)

Section DoWhile.
Variable body : heap -> result heap.
Variable N : Z.
Hypothesis body_loop : forall h h', body h = Ok h' -> loop h' = loop h.

Lemma do_while_unfold (fuel : nat) (h h1 : heap) :
  body h = Ok h1 ->
  do_while (S fuel) body N h =
    if (delta h1 >? N) && (loop h <? 500)
    then '(h2, n) <- do_while fuel body N (set_loop h1 (loop h + 1)) ;
         Ok (h2, S n)
    else Ok (set_loop h1 (if delta h1 >? N then loop h + 1 else loop h),
             1%nat).
Proof.
  intros Hb. simpl. rewrite Hb. simpl. unfold loop_test.
  rewrite (body_loop _ _ Hb).
  destruct (delta h1 >? N), (loop h <? 500); reflexivity.
Qed.

Lemma do_while_terminates (fuel : nat) :
  (forall h, terminates (body h)) ->
  forall h, 501 - loop h <= Z.of_nat fuel -> (1 <= fuel)%nat ->
            terminates (do_while fuel body N h).
Proof.
  intros Hterm. induction fuel as [|fuel IH]; intros h Hf H1; [lia|].
  destruct (body h) as [h1| |] eqn:Hb.
  - rewrite (do_while_unfold _ _ _ Hb).
    destruct (delta h1 >? N); simpl; [|discriminate].
    destruct (Z.ltb_spec (loop h) 500) as [Hl|Hl]; [|discriminate].
    apply bind_terminates.
    + apply IH; simpl; lia.
    + intros [h2 n]. discriminate.
  - simpl. rewrite Hb. discriminate.
  - exfalso. exact (Hterm h Hb).
Qed.

Lemma do_while_count (fuel : nat) :
  forall h h' n, do_while fuel body N h = Ok (h', n) ->
    (1 <= n)%nat /\ Z.of_nat n <= Z.max 1 (501 - loop h).
Proof.
  induction fuel as [|fuel IH]; intros h h' n H; [discriminate|].
  destruct (body h) as [h1| |] eqn:Hb;
    [|simpl in H; rewrite Hb in H; discriminate..].
  rewrite (do_while_unfold _ _ _ Hb) in H.
  destruct (delta h1 >? N); simpl in H; [|inv_ok H; lia].
  destruct (Z.ltb_spec (loop h) 500) as [Hl|Hl]; [|inv_ok H; lia].
  inv_bind H. destruct v as [h2 m]. inv_ok H.
  apply IH in E. simpl in E. lia.
Qed.

(** The body is executed again exactly when the scaled [delta] it left
    exceeds [N] and the counter is below 500. *)
Lemma do_while_again (fuel : nat) (h h1 hf : heap) (n : nat) :
  body h = Ok h1 ->
  do_while (S fuel) body N h = Ok (hf, n) ->
  (1 < n)%nat <-> delta h1 > N /\ loop h < 500.
Proof.
  intros Hb H. rewrite (do_while_unfold _ _ _ Hb) in H.
  destruct (Z.gtb_spec (delta h1) N) as [Hd|Hd],
           (Z.ltb_spec (loop h) 500) as [Hl|Hl]; simpl in H;
    try (inv_ok H; lia).
  inv_bind H. destruct v as [h2 m]. inv_ok H.
  apply do_while_count in E. lia.
Qed.

(** When the test on [delta] never fails the body runs for
    [loop = 0, 1, ..., 500]. *)
Lemma do_while_never_converged (fuel : nat) :
  (forall h, exists h', body h = Ok h' /\ delta h' > N) ->
  forall h, 0 <= loop h <= 500 -> 501 - loop h <= Z.of_nat fuel ->
    exists h', do_while fuel body N h = Ok (h', Z.to_nat (501 - loop h))
               /\ loop h' = 501.
Proof.
  intros Hb. induction fuel as [|fuel IH]; intros h Hl Hf; [lia|].
  destruct (Hb h) as (h1 & Hh1 & Hd).
  rewrite (do_while_unfold _ _ _ Hh1).
  destruct (Z.gtb_spec (delta h1) N) as [_|]; [|lia]. simpl.
  destruct (Z.ltb_spec (loop h) 500) as [Hlt|Hge].
  - destruct (IH (set_loop h1 (loop h + 1))) as (h2 & -> & Hh2);
      simpl; [lia..|].
    exists h2. split; [|exact Hh2]. simpl. do 2 f_equal. lia.
  - exists (set_loop h1 (loop h + 1)). simpl. split; [|lia].
    do 2 f_equal. lia.
Qed.

Lemma do_while_objects (fuel : nat) :
  (forall h h', body h = Ok h' -> objects h' = objects h) ->
  forall h h' n, do_while fuel body N h = Ok (h', n) ->
                 objects h' = objects h.
Proof.
  intros Hobj. induction fuel as [|fuel IH]; intros h h' n H;
    [discriminate|].
  destruct (body h) as [h1| |] eqn:Hb;
    [|simpl in H; rewrite Hb in H; discriminate..].
  rewrite (do_while_unfold _ _ _ Hb) in H.
  destruct (_ && _).
  - inv_bind H. destruct v as [h2 m]. inv_ok H. apply IH in E.
    simpl in E. rewrite E. eauto.
  - inv_ok H. simpl. eauto.
Qed.
End DoWhile.

Lemma loop_body_frame (c : config) (m : Z) (h h' : heap) :
  loop_body c m h = Ok h' ->
  objects h' = objects h /\ loop h' = loop h.
Proof.
  unfold loop_body. intros H.
  apply bind_Ok in H as (h1 & E & H). apply bind_Ok in H as (d & _ & H).
  inv_ok H. apply iteration_frame in E. simpl. tauto.
Qed.

Lemma init_heap_frame (c : config) (objs : list (list float)) (h : heap) :
  init_heap c objs = Ok h -> objects h = objs /\ loop h = 0.
Proof.
  unfold init_heap. intros H. step H.
  match type of E with for_range _ _ _ ?h0 = _ => set (h1 := h0) in * end.
  assert (Hv : objects v = objs /\ loop v = 0).
  { revert E.
    apply (for_range_preserves (fun t => objects t = objs /\ loop t = 0));
      [|split; reflexivity].
    intros i t t' _ Ht.
    apply (for_range_preserves (fun t => objects t = objs /\ loop t = 0));
      [|exact Ht].
    intros j u u' _ Hu Hb. step Hb. exact Hu. }
  revert H.
  apply (for_range_preserves (fun t => objects t = objs /\ loop t = 0));
    [|exact Hv].
  intros i t t' _ Ht Hb. step Hb. exact Ht.
Qed.

(** The call terminates: the fuel given to the loop is never used up. *)
Lemma omp_kmeans_terminates (c : config) (objs : list (list float))
    (threshold : float) :
  terminates (omp_kmeans c objs threshold).
Proof.
  unfold omp_kmeans.
  apply bind_terminates; [apply magnitude_of_terminates|]. intros m.
  destruct (init_heap c objs) as [h| |] eqn:Hi; cbn [bind];
    try discriminate.
  - apply init_heap_frame in Hi as [_ Hl].
    apply do_while_terminates.
    + intros h0 h1 Hb. apply loop_body_frame in Hb. tauto.
    + intros h0. apply loop_body_terminates.
    + rewrite Hl. lia.
    + lia.
  - exfalso. exact (init_heap_terminates c objs Hi).
Qed.

(** The body of the loop runs at most 501 times. *)
Lemma omp_kmeans_at_most_501 (c : config) (objs : list (list float))
    (threshold : float) (h : heap) (n : nat) :
  omp_kmeans c objs threshold = Ok (h, n) -> (1 <= n <= 501)%nat.
Proof.
  unfold omp_kmeans. intros H. step H.
  apply init_heap_frame in E0 as [_ Hl].
  apply do_while_count in H.
  - rewrite Hl in H. lia.
  - intros h0 h1 Hb. apply loop_body_frame in Hb. tauto.
Qed.

(** ** The inlined search and the counter of the parallel region *)

Lemma nearest_inlined_zero_or_self (c : config) (i : Z) (o : list float)
    (cl : list (list float)) (index : Z) :
  nearest_inlined c i o cl = Ok index -> index = 0 \/ index = i.
Proof.
  unfold nearest_inlined. intros H. step H. simpl.
  revert E1.
  apply (for_range_preserves (fun p : Z * float => fst p = 0 \/ fst p = i));
    [|left; reflexivity].
  intros j [ix md] [ix' md'] _ Hp Hb. step Hb; simpl; auto.
Qed.

Lemma lxor_eqb (a b : Z) : (Z.lxor a b =? 0) = (a =? b).
Proof.
  destruct (Z.eqb_spec a b) as [->|Hne].
  - rewrite Z.lxor_nilpotent. reflexivity.
  - apply Z.eqb_neq. intros H. apply Hne, Z.lxor_eq, H.
Qed.

(** What the parallel region does for the object [i]: it stores the index
    found by the inlined search and adds one to [delta] exactly when that
    index equals the value [membership[i]] had. *)
Lemma assign_point_effect (c : config) (i : Z) (h h' : heap) :
  assign_point c i h = Ok h' ->
  exists coord1 old index,
    rd (objects h) i = Ok coord1 /\
    nearest_inlined c i coord1 (clusters h) = Ok index /\
    rd (membership h) i = Ok old /\
    rd (membership h') i = Ok index /\
    (forall j, j <> i -> rd (membership h') j = rd (membership h) j) /\
    delta h' = delta h + (if old =? index then 1 else 0).
Proof.
  unfold assign_point. intros H. step H.
  exists v, v1, v0. repeat (split; [assumption|]).
  match type of H with for_range _ _ _ ?h0 = _ => set (hs := h0) in * end.
  assert (Hk : membership h' = membership hs /\ delta h' = delta hs).
  { revert H.
    apply (for_range_preserves
             (fun t => membership t = membership hs /\ delta t = delta hs));
      [|split; reflexivity].
    intros k t t' _ Ht Hb. step Hb. exact Ht. }
  destruct Hk as [-> ->]. subst hs. simpl in *.
  rewrite lxor_eqb. repeat split.
  - eapply rd_wr_same; eauto.
  - intros j Hj. eapply rd_wr_other; eauto.
Qed.

Lemma nth_rd (a : list Z) (i : Z) (x : Z) :
  rd a i = Ok x -> nth (Z.to_nat i) a 0 = x.
Proof.
  intros H. apply rd_Ok in H as [_ H]. rewrite nth_lookup, H. reflexivity.
Qed.

Lemma nth_rd_eq (a b : list Z) (i : Z) :
  0 <= i -> rd a i = rd b i -> nth (Z.to_nat i) a 0 = nth (Z.to_nat i) b 0.
Proof.
  unfold rd. destruct (Z.ltb_spec i 0) as [|_]; [lia|]. intros _.
  rewrite !nth_lookup.
  destruct (a !! Z.to_nat i), (b !! Z.to_nat i); simpl; congruence.
Qed.

Lemma same_count_ext (old new new' : list Z) (n : nat) :
  (forall i, (i < n)%nat -> nth i new 0 = nth i new' 0) ->
  same_count old new n = same_count old new' n.
Proof.
  induction n as [|n IH]; intros H; simpl; [reflexivity|].
  rewrite IH by (intros; apply H; lia). rewrite (H n) by lia. reflexivity.
Qed.

(** The parallel region adds to [delta] the number of points whose new
    assignment equals their previous membership value. *)
Lemma assign_phase_counts_unchanged (c : config) (h h' : heap) :
  assign_phase c h = Ok h' ->
  delta h' = delta h + same_count (membership h) (membership h')
                         (Z.to_nat (numObjs c)).
Proof.
  unfold assign_phase. intros H.
  assert (Hinv :
    delta h' = delta h + same_count (membership h) (membership h')
                           (Z.to_nat (Z.max 0 (numObjs c))) /\
    forall j, Z.max 0 (numObjs c) <= j ->
              rd (membership h') j = rd (membership h) j).
  { revert H.
    apply (for_range_inv (fun k t =>
      delta t = delta h + same_count (membership h) (membership t)
                            (Z.to_nat k) /\
      forall j, k <= j -> rd (membership t) j = rd (membership h) j)).
    - intros k t t' Hk [Hd Hrest] Hb.
      apply assign_point_effect in Hb
        as (o & old & ix & _ & _ & Hold & Hnew & Hoth & Hdelta).
      split.
      + rewrite Hdelta, Hd.
        replace (Z.to_nat (k + 1)) with (S (Z.to_nat k)) by lia. simpl.
        rewrite (same_count_ext _ (membership t') (membership t)).
        2:{ intros i Hi. rewrite <- (Nat2Z.id i).
            apply nth_rd_eq; [lia|]. apply Hoth. lia. }
        rewrite Hrest in Hold by lia.
        rewrite (nth_rd _ _ _ Hold), (nth_rd _ _ _ Hnew). lia.
      + intros j Hj. rewrite Hoth by lia. apply Hrest. lia.
    - split; [simpl; lia | auto]. }
  destruct Hinv as [Hd _]. rewrite Hd. do 2 f_equal. lia.
Qed.

(** ** The averaging *)


Lemma averaged_other (h u u' : heap) (i j : Z) :
  rd2 (clusters u') i j = rd2 (clusters u) i j ->
  averaged h u i j -> averaged h u' i j.
Proof.
  intros Heq (n & sum & Hn & Hs & Hc). exists n, sum.
  rewrite Heq. auto.
Qed.

Lemma update_row_step (c : config) (h t u u' : heap) (i j : Z) :
  update_inv c h t i -> 0 <= j ->
  row_inv c h t u i j ->
  (n <- rd (newClusterSize u) i ;
   h1 <-
     (if n >? 1 then
        sum <- rd2 (newClusters u) i j ;
        n <- rd (newClusterSize u) i ;
        cs' <- wr2 (clusters u) i j (fdiv sum (float_of_int n)) ;
        Ok (set_clusters u cs')
      else Ok u) ;
   sums' <- wr2 (newClusters h1) i j fzero ;
   Ok (set_newClusters h1 sums')) = Ok u' ->
  row_inv c h t u' i (j + 1).
Proof.
  intros Ht Hj Hu Hb. destruct Ht as [Hsz Hsm Hcl _].
  destruct Hu as [Rsz Rsm Rcl Rdone].
  apply bind_Ok in Hb as (n & En & Hb).
  apply bind_Ok in Hb as (h1 & Eh1 & Hb).
  apply bind_Ok in Hb as (sums' & Esums & Hb). inv_ok Hb.
  assert (Hn : rd (newClusterSize h) i = Ok n).
  { rewrite <- Hsz by lia. rewrite <- Rsz. exact En. }
  assert (Hsums : forall i' j', i' <> i \/ j + 1 <= j' ->
            rd2 sums' i' j' = rd2 (newClusters h1) i' j').
  { intros i' j' Hij. destruct (Z.eq_dec i' i) as [->|Hi].
    - eapply rd2_wr2_other_col; eauto. lia.
    - eapply rd2_wr2_other_row; eauto. }
  destruct (n >? 1) eqn:Hgt.
  - (* the centre is replaced *)
    apply bind_Ok in Eh1 as (sum & Esum & Eh1).
    apply bind_Ok in Eh1 as (n' & En' & Eh1).
    apply bind_Ok in Eh1 as (cs' & Ecs & Eh1). inv_ok Eh1.
    rewrite En in En'. inv_ok En'. simpl in *.
    assert (Hsum : rd2 (newClusters h) i j = Ok sum).
    { rewrite <- Hsm by lia. rewrite <- Rsm by (right; lia). exact Esum. }
    split; simpl.
    + exact Rsz.
    + intros i' j' Hij. rewrite Hsums by exact Hij.
      apply Rsm. destruct Hij; [left|right]; lia.
    + intros i' j' Hij. rewrite <- Rcl by (destruct Hij; [left|right]; lia).
      destruct (Z.eq_dec i' i) as [->|Hi].
      * eapply rd2_wr2_other_col; eauto. lia.
      * eapply rd2_wr2_other_row; eauto.
    + intros j' Hj'. destruct (Z.eq_dec j' j) as [->|Hne].
      * exists n', sum. rewrite Hgt. repeat split; auto.
        eapply rd2_wr2_same; eauto.
      * apply (averaged_other h u); [|apply Rdone; lia]. simpl.
        eapply rd2_wr2_other_col; eauto.
  - (* the centre is kept *)
    inv_ok Eh1. simpl in *. split; simpl.
    + exact Rsz.
    + intros i' j' Hij. rewrite Hsums by exact Hij.
      apply Rsm. destruct Hij; [left|right]; lia.
    + intros i' j' Hij. apply Rcl. destruct Hij; [left|right]; lia.
    + intros j' Hj'. destruct (Z.eq_dec j' j) as [->|Hne].
      * assert (Hrd : exists s, rd2 (newClusters h1) i j = Ok s).
        { unfold wr2 in Esums.
          apply bind_Ok in Esums as (row & Erow & Esums).
          apply bind_Ok in Esums as (row' & Erow' & Esums).
          apply wr_Ok in Erow' as [Hb _].
          destruct (rd_in_range row j Hb) as [s Hs]. exists s.
          unfold rd2. rewrite Erow. exact Hs. }
        destruct Hrd as [s Hs]. exists n, s. rewrite Hgt.
        repeat split; auto.
        -- rewrite <- Hsm by lia. rewrite <- Rsm by (right; lia). exact Hs.
        -- rewrite Rcl by (right; lia). apply Hcl. lia.
      * apply Rdone. lia.
Qed.

Lemma update_phase_inv (c : config) (h h' : heap) :
  update_phase c h = Ok h' ->
  update_inv c h h' (Z.max 0 (numClusters c)).
Proof.
  unfold update_phase.
  apply (for_range_inv (fun k t => update_inv c h t k)).
  2:{ split; auto. intros; lia. }
  intros i t t' Hi Ht Hb.
  apply bind_Ok in Hb as (u & Eu & Hb).
  apply bind_Ok in Hb as (sizes' & Esz & Hb). inv_ok Hb.
  assert (Hu : row_inv c h t u i (Z.max 0 (numCoords c))).
  { revert Eu. apply (for_range_inv (fun l u => row_inv c h t u i l)).
    - intros j u0 u1 Hj Hu0. apply update_row_step; auto. lia.
    - split; auto. intros; lia. }
  destruct Ht as [Hsz Hsm Hcl Hdone].
  destruct Hu as [Rsz Rsm Rcl Rdone].
  split; simpl.
  - intros i' Hi'. rewrite (rd_wr_other _ _ _ _ _ Esz) by lia.
    rewrite Rsz. apply Hsz. lia.
  - intros i' j Hi'. rewrite Rsm by (left; lia). apply Hsm. lia.
  - intros i' j Hi'. rewrite Rcl by (left; lia). apply Hcl. lia.
  - intros i' j Hi' Hj. destruct (Z.eq_dec i' i) as [->|Hne].
    + destruct (Rdone j) as (n & sum & Hn & Hs & Hc); [lia|].
      exists n, sum. auto.
    + apply (averaged_other h t).
      * simpl. apply Rcl. left. exact Hne.
      * apply Hdone; lia.
Qed.

(** After the averaging every coordinate of every centre is the quotient
    of its sum by its count when the count exceeds 1, and is what it was
    otherwise. *)
Lemma update_phase_spec (c : config) (h h' : heap) (i j : Z) :
  update_phase c h = Ok h' ->
  0 <= i < numClusters c -> 0 <= j < numCoords c ->
  exists n sum,
    rd (newClusterSize h) i = Ok n /\
    rd2 (newClusters h) i j = Ok sum /\
    rd2 (clusters h') i j =
      (if n >? 1 then Ok (fdiv sum (float_of_int n))
       else rd2 (clusters h) i j).
Proof.
  intros H Hi Hj. apply update_phase_inv in H.
  apply (ui_done _ _ _ _ H); lia.
Qed.

Lemma valid_three_points (t : float) :
  flt fzero t = true /\ SFleb t fone = true ->
  valid_input four_workers three_points t.
Proof.
  intros Ht. split; simpl; try lia; auto.
  repeat constructor.
Qed.


Lemma do_while_post (Q : heap -> Prop) (body : heap -> result heap) (N : Z) :
  (forall h h', body h = Ok h' -> Q h') ->
  (forall h l, Q h -> Q (set_loop h l)) ->
  forall fuel h h' n, do_while fuel body N h = Ok (h', n) -> Q h'.
Proof.
  intros Hb Hl. induction fuel as [|fuel IH]; intros h h' n H;
    [discriminate|].
  simpl in H. apply bind_Ok in H as (h1 & Eh1 & H).
  destruct (loop_test N (delta h1) (loop h1)) as [[|] l].
  - apply bind_Ok in H as ([h2 m] & E2 & H). inv_ok H. eauto.
  - inv_ok H. eauto.
Qed.

(** Every value the parallel region stores in [membership] is 0 or the
    index of the object itself. *)
Lemma iteration_membership (c : config) (h h' : heap) (i : Z) :
  iteration c h = Ok h' -> 0 <= i < numObjs c ->
  rd (membership h') i = Ok 0 \/ rd (membership h') i = Ok i.
Proof.
  unfold iteration. intros H Hi.
  apply bind_Ok in H as (h1 & E1 & H).
  apply bind_Ok in H as (h2 & E2 & H).
  apply reduce_phase_frame in E2 as [_ Hm2 _ _ _].
  apply update_phase_frame in H as [_ Hm3 _ _ _ _].
  rewrite Hm3, Hm2.
  assert (Hinv : forall j, 0 <= j < Z.max 0 (numObjs c) ->
            rd (membership h1) j = Ok 0 \/ rd (membership h1) j = Ok j).
  { revert E1. unfold assign_phase.
    apply (for_range_inv (fun k t => forall j, 0 <= j < k ->
             rd (membership t) j = Ok 0 \/ rd (membership t) j = Ok j)).
    - intros k t t' Hk Ht Hb j Hj.
      apply assign_point_effect in Hb
        as (o & old & ix & _ & Hix & _ & Hnew & Hoth & _).
      destruct (Z.eq_dec j k) as [->|Hne].
      + rewrite Hnew.
        apply nearest_inlined_zero_or_self in Hix as [->| ->]; auto.
      + rewrite Hoth by exact Hne. apply Ht. lia.
    - intros j Hj. lia. }
  apply Hinv. lia.
Qed.

(** Every membership value a call returns is 0 or the index of the
    object itself. *)
Lemma omp_kmeans_membership (c : config) (objs : list (list float))
    (threshold : float) (h : heap) (n : nat) (i : Z) :
  omp_kmeans c objs threshold = Ok (h, n) -> 0 <= i < numObjs c ->
  rd (membership h) i = Ok 0 \/ rd (membership h) i = Ok i.
Proof.
  unfold omp_kmeans. intros H Hi.
  apply bind_Ok in H as (m & _ & H).
  apply bind_Ok in H as (h0 & _ & H).
  revert H.
  apply (do_while_post
           (fun h => rd (membership h) i = Ok 0 \/ rd (membership h) i = Ok i)).
  - intros h1 h2 Hb. unfold loop_body in Hb.
    apply bind_Ok in Hb as (h3 & E3 & Hb).
    apply bind_Ok in Hb as (d & _ & Hb). inv_ok Hb. simpl.
    eapply iteration_membership; eauto.
  - intros h1 l Hh. exact Hh.
Qed.

(** C1.  The claim: the value assigned to a point is the index of the
    nearest centre, the lowest index among equally near ones.  The code
    at the three points 0, 10, 11 on a line with two clusters: the centres
    are 0 and 10, the centre nearest to the point 11 is centre 1, the
    helper [find_nearest_cluster] finds 1, and the search inlined in
    [omp_kmeans] yields 2, the index of the point, which is what the run
    stores in [membership]. *)
Theorem C1_inlined_search_yields_point_index :
  nearest_centre 2 1 (point 11) [point 0; point 10] 1 /\
  find_nearest_cluster 2 1 (point 11) [point 0; point 10] = Ok 1 /\
  nearest_inlined four_workers 2 (point 11) [point 0; point 10] = Ok 2 /\
  exists h, omp_kmeans four_workers three_points fone = Ok (h, 1%nat) /\
            rd (membership h) 2 = Ok 2.
Proof.
  split; [|split; [|split]].
  - split; [lia|]. eexists. split; [vm_compute; reflexivity|].
    intros j d Hj Hd.
    assert (Hc : j = 0 \/ j = 1) by lia.
    destruct Hc as [-> | ->]; vm_compute in Hd; inv_ok Hd;
      (split; [reflexivity | intros; first [reflexivity | lia]]).
  - vm_compute. reflexivity.
  - vm_compute. reflexivity.
  - eexists. split; vm_compute; reflexivity.
Qed.

(** C2.  The claim: on a valid input every returned membership value lies
    in [0, numClusters).  The code on a valid input with three points and
    two clusters returns the membership values 0, 1, 2. *)
Theorem C2_membership_leaves_range :
  valid_input four_workers three_points fone /\
  numClusters four_workers = 2 /\
  exists h, omp_kmeans four_workers three_points fone = Ok (h, 1%nat) /\
            membership h = [0; 1; 2].
Proof.
  split; [|split].
  - apply valid_three_points. split; reflexivity.
  - reflexivity.
  - eexists. split; vm_compute; reflexivity.
Qed.

(** C3.  The claim: [delta] is the number of points whose new assignment
    differs from their previous membership value.  The code in the first
    pass over three points, all of which leave the sentinel -1: three
    points change and [delta] is 0. *)
Theorem C3_delta_counts_unchanged_points :
  exists h0 h1,
    init_heap four_workers three_points = Ok h0 /\
    assign_phase four_workers (set_delta h0 0) = Ok h1 /\
    membership h0 = [-1; -1; -1] /\
    membership h1 = [0; 1; 2] /\
    changed_count (membership h0) (membership h1) = 3 /\
    delta h1 = 0.
Proof.
  do 2 eexists.
  split; [vm_compute; reflexivity|].
  split; [vm_compute; reflexivity|].
  repeat split.
Qed.

(** C10.  The claim: the index used for the workers' accumulators lies in
    [0, numClusters).  The code with one worker, three points and two
    clusters: the accumulators hold two slots, the index found for the
    point 11 is 2, and the access to slot 2 is outside the block. *)
Theorem C10_accumulator_index_out_of_bounds :
  exists h0,
    init_heap one_worker three_points = Ok h0 /\
    length (local_newClusterSize h0) = 2%nat /\
    length (local_newClusters h0) = 2%nat /\
    nearest_inlined one_worker 2 (point 11) (clusters h0) = Ok 2 /\
    local_slot one_worker (tid_of one_worker 2) 2 = Ok 2 /\
    assign_phase one_worker h0 = Undefined /\
    omp_kmeans one_worker three_points fone = Undefined.
Proof.
  eexists. split; [vm_compute; reflexivity|].
  repeat split.
Qed.

(** C5.  In every pass of the loop body, for every centre [i] and
    coordinate [j]: with [n] the count and [sum] the coordinate sum the
    reduction has gathered for the centre, the coordinate becomes
    [sum / n] when [n > 1] and keeps the value it had before the pass
    when [n] is 0 or 1. *)
Theorem C5_centre_replaced_only_when_count_exceeds_one
    (c : config) (h h' : heap) (i j : Z) :
  iteration c h = Ok h' ->
  0 <= i < numClusters c -> 0 <= j < numCoords c ->
  exists ha hr n sum,
    assign_phase c (set_delta h 0) = Ok ha /\
    reduce_phase c ha = Ok hr /\
    rd (newClusterSize hr) i = Ok n /\
    rd2 (newClusters hr) i j = Ok sum /\
    rd2 (clusters h') i j =
      (if n >? 1 then Ok (fdiv sum (float_of_int n))
       else rd2 (clusters h) i j).
Proof.
  unfold iteration. intros H Hi Hj.
  apply bind_Ok in H as (ha & Ea & H).
  apply bind_Ok in H as (hr & Er & H).
  destruct (update_phase_spec c hr h' i j H Hi Hj) as (n & sum & Hn & Hs & Hc).
  exists ha, hr, n, sum. repeat (split; [assumption|]).
  rewrite Hc.
  apply assign_phase_frame in Ea as [_ Hca _ _ _ _ _].
  apply reduce_phase_frame in Er as [_ _ Hcr _ _].
  rewrite Hcr, Hca. reflexivity.
Qed.

Lemma C5_witness :
  exists h h',
    init_heap four_workers three_points = Ok h /\
    iteration four_workers h = Ok h' /\
    rd2 (clusters h) 0 0 = Ok (f32 0 0) /\
    rd2 (clusters h') 0 0 = Ok (f32 11 (-1)) /\
    exists ha hr n sum,
      assign_phase four_workers (set_delta h 0) = Ok ha /\
      reduce_phase four_workers ha = Ok hr /\
      rd (newClusterSize hr) 0 = Ok n /\
      rd2 (newClusters hr) 0 0 = Ok sum /\
      rd2 (clusters h') 0 0 =
        (if n >? 1 then Ok (fdiv sum (float_of_int n))
         else rd2 (clusters h) 0 0).
Proof.
  do 2 eexists.
  split; [vm_compute; reflexivity|].
  split; [vm_compute; reflexivity|].
  split; [vm_compute; reflexivity|].
  split; [vm_compute; reflexivity|].
  apply (C5_centre_replaced_only_when_count_exceeds_one four_workers);
    [vm_compute; reflexivity | simpl; lia | simpl; lia].
Defined.

(** C8.  A call leaves the array of points as it received it, and the
    parallel assignment phase leaves both the points and the cluster
    centres as it found them. *)
Theorem C8_points_and_centres_are_read_only
    (c : config) (objs : list (list float)) (threshold : float)
    (hf : heap) (n : nat) :
  omp_kmeans c objs threshold = Ok (hf, n) ->
  objects hf = objs /\
  forall h h', assign_phase c h = Ok h' ->
               objects h' = objects h /\ clusters h' = clusters h.
Proof.
  intros Hrun. split.
  - unfold omp_kmeans in Hrun.
    apply bind_Ok in Hrun as (m & Em & Hrun).
    apply bind_Ok in Hrun as (h0 & E0 & Hrun).
    apply init_heap_frame in E0 as [Ho _].
    apply do_while_objects in Hrun.
    + congruence.
    + intros h1 h2 Hb. apply loop_body_frame in Hb. tauto.
    + intros h1 h2 Hb. apply loop_body_frame in Hb. tauto.
  - intros h h' Ha. apply assign_phase_frame in Ha as [Ho Hc _ _ _ _ _].
    auto.
Qed.

Lemma C8_witness :
  exists hf,
    omp_kmeans four_workers three_points fone = Ok (hf, 1%nat) /\
    objects hf = three_points /\
    forall h h', assign_phase four_workers h = Ok h' ->
                 objects h' = objects h /\ clusters h' = clusters h.
Proof.
  eexists. split; [vm_compute; reflexivity|].
  apply (C8_points_and_centres_are_read_only
           four_workers three_points fone _ 1%nat).
  vm_compute. reflexivity.
Defined.

(** ** Unsigned counters *)

Lemma u32_small (z : Z) : 0 <= z < 2 ^ 32 -> u32 z = z.
Proof. intros H. unfold u32. apply Z.mod_small. exact H. Qed.

Lemma for_u32_fuel_inv {St : Type} (P : Z -> St -> Prop)
    (body : Z -> St -> option St) (hi step : Z) :
  0 < step -> hi + step <= 2 ^ 32 ->
  (forall y t, 0 <= y < hi -> P y t ->
               exists t', body y t = Some t' /\ P (y + step) t') ->
  forall (fuel : nat) (x : Z) (s : St),
    0 <= x -> hi - x <= Z.of_nat fuel -> P x s ->
    exists s' y, for_u32_fuel fuel x hi step body s = Some s' /\
                 hi <= y /\ x <= y /\ P y s'.
Proof.
  intros Hstep Hwrap Hbody. induction fuel as [|fuel IH]; intros x s Hx Hf Hs.
  - simpl. destruct (Z.ltb_spec x hi) as [Hlt|Hge]; [lia|].
    exists s, x. repeat split; auto; lia.
  - simpl. destruct (Z.ltb_spec x hi) as [Hlt|Hge].
    + destruct (Hbody x s) as (t & -> & Ht); [lia | exact Hs |].
      rewrite u32_small by lia.
      destruct (IH (x + step) t) as (s' & y & Hrun & Hy1 & Hy2 & Hy3);
        [lia | lia | exact Ht |].
      exists s', y. repeat split; auto; lia.
    + exists s, x. repeat split; auto; lia.
Qed.

Lemma for_u32_inv {St : Type} (P : Z -> St -> Prop)
    (body : Z -> St -> option St) (lo hi step : Z) (s : St) :
  0 <= lo -> 0 < step -> hi + step <= 2 ^ 32 ->
  P lo s ->
  (forall y t, lo <= y < hi -> P y t ->
               exists t', body y t = Some t' /\ P (y + step) t') ->
  exists s' y, for_u32 lo hi step body s = Some s' /\
               hi <= y /\ lo <= y /\ P y s'.
Proof.
  intros Hlo Hstep Hwrap Hs Hbody. unfold for_u32.
  assert (Hb' : forall y t, 0 <= y < hi -> lo <= y /\ P y t ->
            exists t', body y t = Some t' /\ lo <= y + step /\ P (y + step) t').
  { intros y t Hy [Hly Ht].
    destruct (Hbody y t) as (t' & Hb & Ht'); [lia | exact Ht |].
    exists t'. repeat split; auto; lia. }
  destruct (for_u32_fuel_inv (fun y t => lo <= y /\ P y t) body hi step
              Hstep Hwrap Hb' (Z.to_nat hi) lo s)
    as (s' & y & Hrun & Hy1 & Hy2 & Hy3 & Hy4); [lia | lia | split; [lia|exact Hs] |].
  exists s', y. auto.
Qed.

(** A loop that counts by one ends with its counter on the bound. *)
Lemma for_u32_inv1 {St : Type} (P : Z -> St -> Prop)
    (body : Z -> St -> option St) (lo hi : Z) (s : St) :
  0 <= lo <= hi -> hi + 1 <= 2 ^ 32 ->
  P lo s ->
  (forall y t, lo <= y < hi -> P y t ->
               exists t', body y t = Some t' /\ P (y + 1) t') ->
  exists s', for_u32 lo hi 1 body s = Some s' /\ P hi s'.
Proof.
  intros Hlo Hwrap Hs Hbody.
  assert (Hb' : forall y t, lo <= y < hi -> y <= hi /\ P y t ->
            exists t', body y t = Some t' /\ y + 1 <= hi /\ P (y + 1) t').
  { intros y t Hy [_ Ht]. destruct (Hbody y t Hy Ht) as (t' & Hb & Ht').
    exists t'. repeat split; auto; lia. }
  destruct (for_u32_inv (fun y t => y <= hi /\ P y t) body lo hi 1 s)
    as (s' & y & Hrun & Hy1 & Hy2 & Hy3 & Hy4);
    [lia | lia | lia | split; [lia | exact Hs] | exact Hb' |].
  exists s'. split; [exact Hrun|]. replace hi with y by lia. exact Hy4.
Qed.

Section Exact.
Context {R : Type} (rO rI : R) (radd rmul rsub : R -> R -> R)
  (ropp : R -> R).
Hypothesis Rth : ring_theory rO rI radd rmul rsub ropp eq.
Add Ring Rring : Rth.

Variables (A B C0 : @buffer R) (dim : Z).
Hypothesis dim_fits : dim * dim <= 2 ^ 32.

Local Abbreviation term := (product_term rmul A B dim).
Local Abbreviation psum := (partial_sum rO radd).
Local Abbreviation rep := (represents rO radd rmul A B C0 dim).

Lemma cell_range (i j : Z) :
  0 <= i < dim -> 0 <= j < dim -> 0 <= i * dim + j < dim * dim.
Proof. intros Hi Hj. nia. Qed.

Lemma cell_inj (i j i' j' : Z) :
  0 <= j < dim -> 0 <= j' < dim ->
  i * dim + j = i' * dim + j' -> i = i' /\ j = j'.
Proof.
  intros Hj Hj' H.
  assert (i = i') by nia. subst. split; [reflexivity | lia].
Qed.

Lemma u32_cell (i j : Z) :
  0 <= i < dim -> 0 <= j < dim -> u32 (u32 (i * dim) + j) = i * dim + j.
Proof.
  intros Hi Hj. pose proof (cell_range i j Hi Hj).
  rewrite (u32_small (i * dim)) by nia. apply u32_small. lia.
Qed.

Lemma u32_cell' (i j : Z) :
  0 <= i < dim -> 0 <= j < dim -> u32 (u32 (dim * i) + j) = i * dim + j.
Proof. intros Hi Hj. rewrite (Z.mul_comm dim i). apply u32_cell; auto. Qed.

Lemma psum_succ (f : Z -> R) (k : Z) :
  0 <= k -> psum f (Z.to_nat (k + 1)) = radd (psum f (Z.to_nat k)) (f k).
Proof.
  intros Hk. rewrite Z2Nat.inj_add by lia.
  replace (Z.to_nat k + Z.to_nat 1)%nat with (S (Z.to_nat k)) by lia.
  simpl. rewrite Z2Nat.id by lia. reflexivity.
Qed.

Lemma rep_ext (g g' : tally) (C : buffer) :
  (forall i j, 0 <= i < dim -> 0 <= j < dim -> g i j = g' i j) ->
  rep g C -> rep g' C.
Proof.
  intros Hg [Hin Hout]. split; [|exact Hout].
  intros i j Hi Hj. rewrite <- (Hg i j Hi Hj). apply Hin; auto.
Qed.

(** [C[i][j] += A[i][k] * B[k][j]] when [k] terms are in. *)
Lemma rep_step (g : tally) (C : buffer) (i j k : Z) :
  0 <= i < dim -> 0 <= j < dim -> g i j = k ->
  rep g C ->
  rep (bump_if g (entry i j) 1) (add_to radd C (i * dim + j) (term i j k)).
Proof.
  intros Hi Hj Hk [Hin Hout]. split.
  - intros i' j' Hi' Hj'. unfold bump_if, entry, add_to, store.
    destruct (Hin i' j' Hi' Hj') as [Hg HC].
    destruct (Z.eqb_spec (i' * dim + j') (i * dim + j)) as [Heq|Hne].
    + apply cell_inj in Heq as [-> ->]; auto.
      rewrite !Z.eqb_refl. simpl. split; [lia|].
      rewrite psum_succ by lia. rewrite HC, Hk. reflexivity.
    + destruct (Z.eqb_spec i' i) as [->|]; simpl; auto.
      destruct (Z.eqb_spec j' j) as [->|]; simpl; auto.
      congruence.
  - intros idx Hidx. unfold add_to, store.
    pose proof (cell_range i j Hi Hj).
    destruct (Z.eqb_spec idx (i * dim + j)); [lia|]. apply Hout, Hidx.
Qed.

(** The unrolled statement: four terms at once. *)
Lemma rep_step4 (g : tally) (C : buffer) (i j k : Z) :
  0 <= i < dim -> 0 <= j < dim -> g i j = k ->
  rep g C ->
  rep (bump_if g (entry i j) 4)
    (add_to radd C (i * dim + j)
       (radd (radd (radd (term i j k) (term i j (k + 1)))
                (term i j (k + 2)))
          (term i j (k + 3)))).
Proof.
  intros Hi Hj Hk [Hin Hout]. split.
  - intros i' j' Hi' Hj'. unfold bump_if, entry, add_to, store.
    destruct (Hin i' j' Hi' Hj') as [Hg HC].
    destruct (Z.eqb_spec (i' * dim + j') (i * dim + j)) as [Heq|Hne].
    + apply cell_inj in Heq as [-> ->]; auto.
      rewrite !Z.eqb_refl. simpl. split; [lia|].
      replace (g i j + 4) with (k + 1 + 1 + 1 + 1) by lia.
      rewrite !psum_succ by lia. rewrite HC, Hk.
      replace (k + 1 + 1) with (k + 2) by lia.
      replace (k + 2 + 1) with (k + 3) by lia. ring.
    + destruct (Z.eqb_spec i' i) as [->|]; simpl; auto.
      destruct (Z.eqb_spec j' j) as [->|]; simpl; auto.
      congruence.
  - intros idx Hidx. unfold add_to, store.
    pose proof (cell_range i j Hi Hj).
    destruct (Z.eqb_spec idx (i * dim + j)); [lia|]. apply Hout, Hidx.
Qed.

(** After [memset] of the whole matrix no term is in. *)
Lemma rep_init (nbytes : Z) :
  0 <= dim -> nbytes = 4 * (dim * dim) ->
  rep (fun _ _ => 0) (memset_zero rO C0 nbytes).
Proof.
  intros Hd ->. split.
  - intros i j Hi Hj. split; [lia|]. unfold memset_zero.
    pose proof (cell_range i j Hi Hj).
    destruct (Z.leb_spec 0 (i * dim + j)); [|lia].
    destruct (Z.leb_spec (4 * (i * dim + j) + 4) (4 * (dim * dim)));
      [|lia].
    reflexivity.
  - intros idx Hidx. unfold memset_zero.
    destruct (Z.leb_spec 0 idx); simpl; [|reflexivity].
    destruct (Z.leb_spec (4 * idx + 4) (4 * (dim * dim))); [lia|].
    reflexivity.
Qed.

(** When every entry has all its terms the matrix is the product. *)
Lemma rep_final (g : tally) (C : buffer) :
  (forall i j, 0 <= i < dim -> 0 <= j < dim -> g i j = dim) ->
  rep g C ->
  (forall i j, 0 <= i < dim -> 0 <= j < dim ->
     C (i * dim + j) = product_entry rO radd rmul A B dim i j) /\
  (forall idx, ~ 0 <= idx < dim * dim -> C idx = C0 idx).
Proof.
  intros Hg [Hin Hout]. split; [|exact Hout].
  intros i j Hi Hj. destruct (Hin i j Hi Hj) as [_ ->].
  rewrite Hg by auto. reflexivity.
Qed.

Ltac cases :=
  repeat match goal with
  | |- context [Z.eqb ?a ?b] => destruct (Z.eqb_spec a b)
  | |- context [Z.ltb ?a ?b] => destruct (Z.ltb_spec a b)
  | |- context [Z.leb ?a ?b] => destruct (Z.leb_spec a b)
  end; simpl; try lia.

Ltac same_tally :=
  let i := fresh "i" in
  let j := fresh "j" in
  intros i j ? ?; unfold bump_if, entry; cases.

Lemma dim_small : 0 <= dim -> dim <= 2 ^ 16.
Proof. intros H. change (2 ^ 32) with (2 ^ 16 * 2 ^ 16) in dim_fits. nia. Qed.

(** *** The triple loop *)

Lemma naive_k_loop (g : tally) (C : buffer) (i j : Z) :
  0 <= i < dim -> 0 <= j < dim -> g i j = 0 -> rep g C ->
  exists C',
    for_u32 0 dim 1
      (fun k C =>
         Some (add_to radd C (u32 (u32 (i * dim) + j))
                 (rmul (A (u32 (u32 (i * dim) + k)))
                       (B (u32 (u32 (k * dim) + j)))))) C = Some C' /\
    rep (bump_if g (entry i j) dim) C'.
Proof.
  intros Hi Hj Hg HC. pose proof (dim_small ltac:(lia)).
  apply (for_u32_inv1 (fun k C => rep (bump_if g (entry i j) k) C));
    try lia.
  - revert HC. apply rep_ext. same_tally.
  - intros k D Hk HD. eexists. split; [reflexivity|].
    rewrite !u32_cell by lia.
    change (rmul (A (i * dim + k)) (B (k * dim + j))) with (term i j k).
    eapply rep_ext; [|apply rep_step; [exact Hi | exact Hj | | exact HD]].
    + same_tally.
    + unfold bump_if, entry. rewrite !Z.eqb_refl. simpl. lia.
Qed.

Lemma naive_j_loop (g : tally) (C : buffer) (i : Z) :
  0 <= i < dim -> (forall j, 0 <= j < dim -> g i j = 0) -> rep g C ->
  exists C',
    for_u32 0 dim 1
      (fun j C =>
         for_u32 0 dim 1
           (fun k C =>
              Some (add_to radd C (u32 (u32 (i * dim) + j))
                      (rmul (A (u32 (u32 (i * dim) + k)))
                            (B (u32 (u32 (k * dim) + j)))))) C) C
    = Some C' /\
    rep (bump_if g (fun i' _ => i' =? i) dim) C'.
Proof.
  intros Hi Hg HC. pose proof (dim_small ltac:(lia)).
  destruct (for_u32_inv1
    (fun j C => rep (bump_if g (fun i' j' => (i' =? i) && (j' <? j)) dim) C)
    (fun j C =>
         for_u32 0 dim 1
           (fun k C =>
              Some (add_to radd C (u32 (u32 (i * dim) + j))
                      (rmul (A (u32 (u32 (i * dim) + k)))
                            (B (u32 (u32 (k * dim) + j)))))) C)
    0 dim C) as (C' & Hrun & HC'); try lia.
  - revert HC. apply rep_ext. same_tally.
  - intros j D Hj HD.
    destruct (naive_k_loop
                (bump_if g (fun i' j' => (i' =? i) && (j' <? j)) dim)
                D i j Hi ltac:(lia)
                ltac:(unfold bump_if; cases; apply Hg; lia) HD)
      as (D' & Hrun & HD').
    exists D'. split; [exact Hrun|].
    revert HD'. apply rep_ext. same_tally.
  - exists C'. split; [exact Hrun|].
    revert HC'. apply rep_ext. same_tally.
Qed.

Lemma naive_loops_rep (C : buffer) :
  0 <= dim -> rep (fun _ _ => 0) C ->
  exists C', MatrixMul.naive_loops radd rmul A B C dim = Some C' /\
             rep (fun _ _ => dim) C'.
Proof.
  intros Hd HC. pose proof (dim_small Hd). unfold MatrixMul.naive_loops.
  destruct (for_u32_inv1
    (fun i C => rep (bump_if (fun _ _ => 0) (fun i' _ => i' <? i) dim) C)
    (fun i C =>
       for_u32 0 dim 1
         (fun j C =>
            for_u32 0 dim 1
              (fun k C =>
                 Some (add_to radd C (u32 (u32 (i * dim) + j))
                         (rmul (A (u32 (u32 (i * dim) + k)))
                               (B (u32 (u32 (k * dim) + j)))))) C) C)
    0 dim C) as (C' & Hrun & HC'); try lia.
  - revert HC. apply rep_ext. same_tally.
  - intros i D Hi HD.
    destruct (naive_j_loop
                (bump_if (fun _ _ => 0) (fun i' _ => i' <? i) dim)
                D i Hi ltac:(intros; unfold bump_if; cases) HD)
      as (D' & Hrun & HD').
    exists D'. split; [exact Hrun|].
    revert HD'. apply rep_ext. same_tally.
  - exists C'. split; [exact Hrun|].
    revert HC'. apply rep_ext. same_tally.
Qed.

(** *** The loops of [matrix_mul4.cc] *)

Local Abbreviation mm4_j i k :=
  (fun j C =>
     Some (add_to radd C (u32 (u32 (dim * i) + j))
             (rmul (A (u32 (u32 (dim * i) + k)))
                   (B (u32 (u32 (dim * k) + j)))))).
Local Abbreviation mm4_k i jj jhi :=
  (fun k C => for_u32 jj jhi 1 (mm4_j i k) C).
Local Abbreviation mm4_i kk khi jj jhi :=
  (fun i C => for_u32 kk khi 1 (mm4_k i jj jhi) C).

Local Abbreviation cols jj jhi :=
  (fun (_ j' : Z) => (jj <=? j') && (j' <? jhi)).
Local Abbreviation row_cols i jj jhi :=
  (fun (i' j' : Z) => (i' =? i) && ((jj <=? j') && (j' <? jhi))).

Lemma mm4_j_loop (g : tally) (C : buffer) (i k jj jhi : Z) :
  0 <= i < dim -> 0 <= k < dim -> 0 <= jj <= jhi -> jhi <= dim ->
  (forall j, jj <= j < jhi -> g i j = k) -> rep g C ->
  exists C', for_u32 jj jhi 1 (mm4_j i k) C = Some C' /\
             rep (bump_if g (row_cols i jj jhi) 1) C'.
Proof.
  intros Hi Hk Hjj Hjhi Hg HC. pose proof (dim_small ltac:(lia)).
  destruct (for_u32_inv1
    (fun j C => rep (bump_if g (row_cols i jj j) 1) C)
    (mm4_j i k) jj jhi C) as (C' & Hrun & HC'); try lia.
  - revert HC. apply rep_ext. same_tally.
  - intros j D Hj HD. eexists. split; [reflexivity|].
    rewrite !u32_cell' by lia.
    change (rmul (A (i * dim + k)) (B (k * dim + j))) with (term i j k).
    eapply rep_ext;
      [|apply rep_step; [exact Hi | | | exact HD]]; try lia.
    + same_tally.
    + unfold bump_if. cases. apply Hg. lia.
  - exists C'. split; [exact Hrun | exact HC'].
Qed.

Lemma mm4_k_loop (g : tally) (C : buffer) (i kk khi jj jhi : Z) :
  0 <= i < dim -> 0 <= kk <= khi -> khi <= dim ->
  0 <= jj <= jhi -> jhi <= dim ->
  (forall j, jj <= j < jhi -> g i j = kk) -> rep g C ->
  exists C', for_u32 kk khi 1 (mm4_k i jj jhi) C = Some C' /\
             rep (bump_if g (row_cols i jj jhi) (khi - kk)) C'.
Proof.
  intros Hi Hkk Hkhi Hjj Hjhi Hg HC. pose proof (dim_small ltac:(lia)).
  destruct (for_u32_inv1
    (fun k C => rep (bump_if g (row_cols i jj jhi) (k - kk)) C)
    (mm4_k i jj jhi) kk khi C) as (C' & Hrun & HC'); try lia.
  - revert HC. apply rep_ext. same_tally.
  - intros k D Hk HD.
    destruct (mm4_j_loop (bump_if g (row_cols i jj jhi) (k - kk))
                D i k jj jhi) as (D' & Hrun & HD'); try lia; auto.
    + intros j Hj. unfold bump_if. cases. rewrite Hg by lia. lia.
    + exists D'. split; [exact Hrun|].
      revert HD'. apply rep_ext. same_tally.
  - exists C'. split; [exact Hrun | exact HC'].
Qed.

Lemma mm4_i_loop (g : tally) (C : buffer) (kk khi jj jhi : Z) :
  0 <= kk <= khi -> khi <= dim -> 0 <= jj <= jhi -> jhi <= dim ->
  (forall i j, 0 <= i < dim -> jj <= j < jhi -> g i j = kk) -> rep g C ->
  exists C', for_u32 0 dim 1 (mm4_i kk khi jj jhi) C = Some C' /\
             rep (bump_if g (cols jj jhi) (khi - kk)) C'.
Proof.
  intros Hkk Hkhi Hjj Hjhi Hg HC. pose proof (dim_small ltac:(lia)).
  destruct (for_u32_inv1
    (fun i C =>
       rep (bump_if g (fun i' j' => (i' <? i) && ((jj <=? j') && (j' <? jhi)))
              (khi - kk)) C)
    (mm4_i kk khi jj jhi) 0 dim C) as (C' & Hrun & HC'); try lia.
  - revert HC. apply rep_ext. same_tally.
  - intros i D Hi HD.
    destruct (mm4_k_loop
                (bump_if g
                   (fun i' j' => (i' <? i) && ((jj <=? j') && (j' <? jhi)))
                   (khi - kk))
                D i kk khi jj jhi) as (D' & Hrun & HD'); try lia; auto.
    + intros j Hj. unfold bump_if. cases. apply Hg; lia.
    + exists D'. split; [exact Hrun|].
      revert HD'. apply rep_ext. same_tally.
  - exists C'. split; [exact Hrun|].
    revert HC'. apply rep_ext. same_tally.
Qed.

Lemma mm4_jj_loop (g : tally) (C : buffer) (kk khi : Z) :
  0 <= kk <= khi -> khi <= dim ->
  (forall i j, 0 <= i < dim -> 0 <= j < dim -> g i j = kk) -> rep g C ->
  exists C',
    for_u32 0 dim 64
      (fun jj C =>
         for_u32 0 dim 1
           (mm4_i kk khi jj (Z.min dim (u32 (jj + 64)))) C) C = Some C' /\
    rep (bump_if g (fun _ _ => true) (khi - kk)) C'.
Proof.
  intros Hkk Hkhi Hg HC. pose proof (dim_small ltac:(lia)).
  destruct (for_u32_inv
    (fun jj C => rep (bump_if g (fun _ j' => j' <? jj) (khi - kk)) C)
    (fun jj C =>
       for_u32 0 dim 1 (mm4_i kk khi jj (Z.min dim (u32 (jj + 64)))) C)
    0 dim 64 C) as (C' & y & Hrun & Hy & _ & HC'); try lia.
  - revert HC. apply rep_ext. same_tally.
  - intros jj D Hjj HD. rewrite (u32_small (jj + 64)) by lia.
    destruct (mm4_i_loop
                (bump_if g (fun _ j' => j' <? jj) (khi - kk))
                D kk khi jj (Z.min dim (jj + 64)))
      as (D' & Hrun & HD'); try lia; auto.
    + intros i j Hi Hj. unfold bump_if. cases. apply Hg; lia.
    + exists D'. split; [exact Hrun|].
      revert HD'. apply rep_ext. same_tally.
  - exists C'. split; [exact Hrun|].
    revert HC'. apply rep_ext. same_tally.
Qed.

Lemma mm4_loops_rep (C : buffer) :
  0 <= dim -> rep (fun _ _ => 0) C ->
  exists C',
    for_u32 0 dim 64
      (fun kk C =>
         for_u32 0 dim 64
           (fun jj C =>
              for_u32 0 dim 1
                (mm4_i kk (Z.min dim (u32 (kk + 64)))
                   jj (Z.min dim (u32 (jj + 64)))) C) C) C = Some C' /\
    rep (fun _ _ => dim) C'.
Proof.
  intros Hd HC. pose proof (dim_small Hd).
  destruct (for_u32_inv
    (fun kk C => rep (fun _ _ => Z.min dim kk) C)
    (fun kk C =>
         for_u32 0 dim 64
           (fun jj C =>
              for_u32 0 dim 1
                (mm4_i kk (Z.min dim (u32 (kk + 64)))
                   jj (Z.min dim (u32 (jj + 64)))) C) C)
    0 dim 64 C) as (C' & y & Hrun & Hy & _ & HC'); try lia.
  - revert HC. apply rep_ext. intros; lia.
  - intros kk D Hkk HD. rewrite (u32_small (kk + 64)) by lia.
    destruct (mm4_jj_loop (fun _ _ => Z.min dim kk) D kk
                (Z.min dim (kk + 64)))
      as (D' & Hrun & HD'); try lia; auto.
    exists D'. split; [exact Hrun|].
    revert HD'. apply rep_ext. intros i j _ _. unfold bump_if. lia.
  - exists C'. split; [exact Hrun|].
    revert HC'. apply rep_ext. intros; lia.
Qed.

(** *** The blocked loops of [matrix_mul.cpp] *)

Lemma term_at (x y i j k : Z) :
  x = i * dim + k -> y = k * dim + j -> rmul (A x) (B y) = term i j k.
Proof. intros -> ->. reflexivity. Qed.

Lemma u32_row_count (row count n : Z) :
  0 <= row < dim -> 0 <= count -> 0 <= n -> count + n < dim ->
  u32 (u32 (u32 (row * dim) + count) + n) = row * dim + count + n.
Proof.
  intros Hr Hc Hn Hcn. rewrite u32_cell by lia.
  apply u32_small. nia.
Qed.

Lemma u32_count_col (count n col : Z) :
  0 <= count -> 0 <= n -> count + n < dim -> 0 <= col < dim ->
  u32 (u32 (u32 (count + n) * dim) + col) = (count + n) * dim + col.
Proof.
  intros Hc Hn Hcn Hcol. pose proof (dim_small ltac:(lia)).
  rewrite (u32_small (count + n)) by lia. apply u32_cell; lia.
Qed.

Local Abbreviation block ib jb blk :=
  (fun (i' j' : Z) =>
     ((ib <=? i') && (i' <? ib + blk)) && ((jb <=? j') && (j' <? jb + blk))).

Lemma subblock_row_loop (ib jb kb blk col row : Z) (fuel : nat) :
  0 <= ib -> ib + blk <= dim -> 0 <= jb -> jb + blk <= dim ->
  0 <= kb -> kb + blk <= dim -> 0 <= row < blk -> 0 <= col < blk ->
  forall (count : Z) (g : tally) (C : buffer),
    0 <= count <= blk -> blk - count <= Z.of_nat fuel ->
    g (ib + row) (jb + col) = kb + count -> rep g C ->
    exists C',
      MatrixMul.subblock_row radd rmul fuel A (ib * dim + kb)
        B (kb * dim + jb) (ib * dim + jb) blk dim col row count C
      = Some C' /\
      rep (bump_if g (entry (ib + row) (jb + col)) (blk - count)) C'.
Proof.
  intros Hib Hib' Hjb Hjb' Hkb Hkb' Hrow Hcol.
  pose proof (dim_small ltac:(lia)) as Hsmall.
  induction fuel as [|fuel IH]; intros count g C Hc Hf Hg HC.
  - simpl. destruct (Z.ltb_spec count blk); [lia|].
    exists C. split; [reflexivity|].
    revert HC. apply rep_ext. same_tally.
  - cbn [MatrixMul.subblock_row].
    destruct (Z.ltb_spec count blk) as [Hlt|Hge].
    2:{ exists C. split; [reflexivity|].
        revert HC. apply rep_ext. same_tally. }
    rewrite (u32_small (count + 4)) by lia.
    rewrite (u32_small (count + 1)) by lia.
    replace (ib * dim + jb + u32 (u32 (row * dim) + col))
      with ((ib + row) * dim + (jb + col))
      by (rewrite u32_cell by lia; ring).
    destruct (Z.ltb_spec (count + 4) blk) as [H4|H4].
    + (* four terms *)
      match goal with
      | |- context [add_to radd C _ ?v] =>
          replace v with
            (radd (radd (radd (term (ib + row) (jb + col) (kb + count))
                           (term (ib + row) (jb + col) (kb + count + 1)))
                     (term (ib + row) (jb + col) (kb + count + 2)))
               (term (ib + row) (jb + col) (kb + count + 3)))
      end.
      2:{ symmetry. f_equal; [f_equal; [f_equal|]|]; apply term_at;
            rewrite ?u32_row_count, ?u32_count_col, ?u32_cell by lia;
            ring. }
      destruct (IH (count + 4)
                  (bump_if g (entry (ib + row) (jb + col)) 4)
                  (add_to radd C ((ib + row) * dim + (jb + col))
                     (radd (radd (radd
                        (term (ib + row) (jb + col) (kb + count))
                        (term (ib + row) (jb + col) (kb + count + 1)))
                        (term (ib + row) (jb + col) (kb + count + 2)))
                        (term (ib + row) (jb + col) (kb + count + 3)))))
        as (C' & Hrun & HC'); try lia.
      * unfold bump_if, entry. rewrite !Z.eqb_refl. simpl. lia.
      * apply rep_step4; auto; lia.
      * exists C'. split; [exact Hrun|].
        revert HC'. apply rep_ext. same_tally.
    + (* one term *)
      match goal with
      | |- context [add_to radd C _ ?v] =>
          replace v with (term (ib + row) (jb + col) (kb + count))
      end.
      2:{ symmetry. apply term_at;
            rewrite ?u32_cell by lia; ring. }
      destruct (IH (count + 1)
                  (bump_if g (entry (ib + row) (jb + col)) 1)
                  (add_to radd C ((ib + row) * dim + (jb + col))
                     (term (ib + row) (jb + col) (kb + count))))
        as (C' & Hrun & HC'); try lia.
      * unfold bump_if, entry. rewrite !Z.eqb_refl. simpl. lia.
      * apply rep_step; auto; lia.
      * exists C'. split; [exact Hrun|].
        revert HC'. apply rep_ext. same_tally.
Qed.

Lemma subblock_rep (g : tally) (C : buffer) (ib jb kb blk : Z) :
  0 <= ib -> ib + blk <= dim -> 0 <= jb -> jb + blk <= dim ->
  0 <= kb -> kb + blk <= dim -> 0 <= blk ->
  (forall i j, ib <= i < ib + blk -> jb <= j < jb + blk -> g i j = kb) ->
  rep g C ->
  exists C',
    MatrixMul.matrix_multiplication_subblock radd rmul
      A (ib * dim + kb) B (kb * dim + jb) C (ib * dim + jb) blk dim
    = Some C' /\
    rep (bump_if g (block ib jb blk) blk) C'.
Proof.
  intros Hib Hib' Hjb Hjb' Hkb Hkb' Hblk Hg HC.
  pose proof (dim_small ltac:(lia)).
  unfold MatrixMul.matrix_multiplication_subblock.
  destruct (for_u32_inv1
    (fun col C =>
       rep (bump_if g
              (fun i' j' => ((ib <=? i') && (i' <? ib + blk)) &&
                            ((jb <=? j') && (j' <? jb + col))) blk) C)
    (fun col C =>
       for_u32 0 blk 1
         (fun row C =>
            MatrixMul.subblock_row radd rmul (Z.to_nat blk)
              A (ib * dim + kb) B (kb * dim + jb) (ib * dim + jb)
              blk dim col row 0 C) C)
    0 blk C) as (C' & Hrun & HC'); try lia.
  - revert HC. apply rep_ext. same_tally.
  - intros col D Hcol HD.
    destruct (for_u32_inv1
      (fun row C =>
         rep (bump_if
                (bump_if g
                   (fun i' j' => ((ib <=? i') && (i' <? ib + blk)) &&
                                 ((jb <=? j') && (j' <? jb + col))) blk)
                (fun i' j' => ((ib <=? i') && (i' <? ib + row)) &&
                              (j' =? jb + col)) blk) C)
      (fun row C =>
         MatrixMul.subblock_row radd rmul (Z.to_nat blk)
           A (ib * dim + kb) B (kb * dim + jb) (ib * dim + jb)
           blk dim col row 0 C)
      0 blk D) as (D' & Hrun & HD'); try lia.
    + revert HD. apply rep_ext. same_tally.
    + intros row E Hrow HE.
      destruct (subblock_row_loop ib jb kb blk col row (Z.to_nat blk)
                  Hib Hib' Hjb Hjb' Hkb Hkb' Hrow Hcol 0
                  (bump_if
                     (bump_if g
                        (fun i' j' =>
                           ((ib <=? i') && (i' <? ib + blk)) &&
                           ((jb <=? j') && (j' <? jb + col))) blk)
                     (fun i' j' =>
                        ((ib <=? i') && (i' <? ib + row)) &&
                        (j' =? jb + col)) blk)
                  E)
        as (E' & Hrun & HE'); try lia; auto.
      * unfold bump_if. cases. rewrite Hg; lia.
      * exists E'. split; [exact Hrun|].
        revert HE'. apply rep_ext. same_tally.
    + exists D'. split; [exact Hrun|].
      revert HD'. apply rep_ext. same_tally.
  - exists C'. split; [exact Hrun | exact HC'].
Qed.

Lemma find_blk_range_spec (n : nat) :
  (1 <= n)%nat ->
  1 <= MatrixMul.find_blk_range dim n <= Z.of_nat n /\
  Z.modulo dim (MatrixMul.find_blk_range dim n) = 0.
Proof.
  induction n as [|n IH]; intros Hn; [lia|].
  cbn [MatrixMul.find_blk_range].
  destruct (Z.eqb_spec (Z.modulo dim (Z.of_nat (S n))) 0) as [H0|H0].
  - split; [lia | exact H0].
  - destruct n as [|n].
    + exfalso. apply H0. apply Z.mod_1_r.
    + destruct IH as [Hr Hm]; [lia|]. split; [lia | exact Hm].
Qed.

Lemma next_block (x blk : Z) :
  0 < blk -> Z.modulo dim blk = 0 -> Z.modulo x blk = 0 ->
  0 <= x < dim ->
  x + blk <= dim /\ Z.modulo (x + blk) blk = 0.
Proof.
  intros Hb Hd Hx Hlt.
  apply Z.mod_divide in Hd; [|lia]. apply Z.mod_divide in Hx; [|lia].
  destruct Hd as [d ->]. destruct Hx as [a ->]. split.
  - assert (a < d) by nia. nia.
  - replace (a * blk + blk) with ((a + 1) * blk) by ring.
    apply Z.mod_mul. lia.
Qed.

Lemma blocked_k_loop (g : tally) (C : buffer) (ib jb blk : Z) :
  0 < blk -> Z.modulo dim blk = 0 ->
  0 <= ib -> ib + blk <= dim -> 0 <= jb -> jb + blk <= dim ->
  (forall i j, ib <= i < ib + blk -> jb <= j < jb + blk -> g i j = 0) ->
  rep g C ->
  exists C',
    for_u32 0 dim blk
      (fun k C =>
         MatrixMul.matrix_multiplication_subblock radd rmul
           A (u32 (u32 (ib * dim) + k)) B (u32 (u32 (k * dim) + jb))
           C (u32 (u32 (ib * dim) + jb)) blk dim) C = Some C' /\
    rep (bump_if g (block ib jb blk) dim) C'.
Proof.
  intros Hblk Hdiv Hib Hib' Hjb Hjb' Hg HC.
  pose proof (dim_small ltac:(lia)).
  destruct (for_u32_inv
    (fun k C => (k <= dim /\ Z.modulo k blk = 0) /\
                rep (bump_if g (block ib jb blk) k) C)
    (fun k C =>
         MatrixMul.matrix_multiplication_subblock radd rmul
           A (u32 (u32 (ib * dim) + k)) B (u32 (u32 (k * dim) + jb))
           C (u32 (u32 (ib * dim) + jb)) blk dim)
    0 dim blk C) as (C' & y & Hrun & Hy & _ & [Hy' _] & HC'); try lia.
  - split; [split; [lia | apply Z.mod_0_l; lia]|].
    revert HC. apply rep_ext. same_tally.
  - intros k D Hk [[_ Hkm] HD].
    destruct (next_block k blk Hblk Hdiv Hkm Hk) as [Hk' Hkm'].
    rewrite !u32_cell by lia.
    destruct (subblock_rep (bump_if g (block ib jb blk) k) D ib jb k blk)
      as (D' & Hrun & HD'); try lia; auto.
    + intros i j Hi Hj. unfold bump_if. cases. rewrite Hg; lia.
    + exists D'. split; [exact Hrun|]. split; [split; assumption|].
      revert HD'. apply rep_ext. same_tally.
  - exists C'. split; [exact Hrun|].
    assert (Hyd : y = dim) by lia. rewrite Hyd in HC'. exact HC'.
Qed.

Lemma blocked_i_loop (g : tally) (C : buffer) (jb blk : Z) :
  0 < blk -> Z.modulo dim blk = 0 -> 0 <= jb -> jb + blk <= dim ->
  (forall i j, 0 <= i < dim -> jb <= j < jb + blk -> g i j = 0) ->
  rep g C ->
  exists C',
    for_u32 0 dim blk
      (fun i C =>
         for_u32 0 dim blk
           (fun k C =>
              MatrixMul.matrix_multiplication_subblock radd rmul
                A (u32 (u32 (i * dim) + k)) B (u32 (u32 (k * dim) + jb))
                C (u32 (u32 (i * dim) + jb)) blk dim) C) C = Some C' /\
    rep (bump_if g (cols jb (jb + blk)) dim) C'.
Proof.
  intros Hblk Hdiv Hjb Hjb' Hg HC.
  pose proof (dim_small ltac:(lia)).
  destruct (for_u32_inv
    (fun i C => (i <= dim /\ Z.modulo i blk = 0) /\
                rep (bump_if g
                       (fun i' j' => (i' <? i) &&
                                     ((jb <=? j') && (j' <? jb + blk)))
                       dim) C)
    (fun i C =>
         for_u32 0 dim blk
           (fun k C =>
              MatrixMul.matrix_multiplication_subblock radd rmul
                A (u32 (u32 (i * dim) + k)) B (u32 (u32 (k * dim) + jb))
                C (u32 (u32 (i * dim) + jb)) blk dim) C)
    0 dim blk C) as (C' & y & Hrun & Hy & _ & [Hy' _] & HC'); try lia.
  - split; [split; [lia | apply Z.mod_0_l; lia]|].
    revert HC. apply rep_ext. same_tally.
  - intros i D Hi [[_ Him] HD].
    destruct (next_block i blk Hblk Hdiv Him Hi) as [Hi' Him'].
    destruct (blocked_k_loop
                (bump_if g
                   (fun i' j' => (i' <? i) &&
                                 ((jb <=? j') && (j' <? jb + blk))) dim)
                D i jb blk) as (D' & Hrun & HD'); try lia; auto.
    + intros i' j Hi'' Hj. unfold bump_if. cases. apply Hg; lia.
    + exists D'. split; [exact Hrun|]. split; [split; assumption|].
      revert HD'. apply rep_ext. same_tally.
  - exists C'. split; [exact Hrun|].
    revert HC'. apply rep_ext. same_tally.
Qed.

Lemma blocked_loops_rep (C : buffer) :
  1 <= dim -> rep (fun _ _ => 0) C ->
  exists C', MatrixMul.blocked_loops radd rmul A B C dim = Some C' /\
             rep (fun _ _ => dim) C'.
Proof.
  intros Hd HC. pose proof (dim_small ltac:(lia)).
  unfold MatrixMul.blocked_loops.
  destruct (find_blk_range_spec 128 ltac:(lia)) as [Hblk Hdiv].
  set (blk := MatrixMul.find_blk_range dim 128) in *.
  destruct (for_u32_inv
    (fun j C => (j <= dim /\ Z.modulo j blk = 0) /\
                rep (bump_if (fun _ _ => 0) (fun _ j' => j' <? j) dim) C)
    (fun j C =>
       for_u32 0 dim blk
         (fun i C =>
            for_u32 0 dim blk
              (fun k C =>
                 MatrixMul.matrix_multiplication_subblock radd rmul
                   A (u32 (u32 (i * dim) + k)) B (u32 (u32 (k * dim) + j))
                   C (u32 (u32 (i * dim) + j)) blk dim) C) C)
    0 dim blk C) as (C' & y & Hrun & Hy & _ & [Hy' _] & HC'); try lia.
  - split; [split; [lia | apply Z.mod_0_l; lia]|].
    revert HC. apply rep_ext. same_tally.
  - intros j D Hj [[_ Hjm] HD].
    destruct (next_block j blk ltac:(lia) Hdiv Hjm Hj) as [Hj' Hjm'].
    destruct (blocked_i_loop
                (bump_if (fun _ _ => 0) (fun _ j' => j' <? j) dim)
                D j blk) as (D' & Hrun & HD'); try lia; auto.
    + intros i j' Hi Hj''. unfold bump_if. cases.
    + exists D'. split; [exact Hrun|]. split; [split; assumption|].
      revert HD'. apply rep_ext. same_tally.
  - exists C'. split; [exact Hrun|].
    revert HC'. apply rep_ext. same_tally.
Qed.

(** *** The three routines *)

Lemma rep_same (C C' : buffer) (g : tally) :
  0 <= dim -> rep g C -> rep g C' -> forall idx, C idx = C' idx.
Proof.
  intros Hdim [Hin Hout] [Hin' Hout'] idx.
  destruct (Z_lt_le_dec idx 0) as [Hneg|Hpos];
    [rewrite Hout, Hout' by lia; reflexivity|].
  destruct (Z_lt_le_dec idx (dim * dim)) as [Hlt|Hge];
    [|rewrite Hout, Hout' by lia; reflexivity].
  assert (Hd : 0 < dim) by nia.
  pose proof (Z.div_mod idx dim ltac:(lia)) as Hdm.
  pose proof (Z.mod_pos_bound idx dim Hd) as Hm.
  assert (Hq : 0 <= idx / dim < dim).
  { split; [apply Z.div_pos; lia | apply Z.div_lt_upper_bound; lia]. }
  assert (Hidx : idx = idx / dim * dim + idx mod dim)
    by (rewrite Z.mul_comm; exact Hdm).
  rewrite Hidx.
  destruct (Hin (idx / dim) (idx mod dim) Hq Hm) as [_ ->].
  destruct (Hin' (idx / dim) (idx mod dim) Hq Hm) as [_ ->].
  reflexivity.
Qed.

Lemma naive_multiplication_rep :
  0 <= dim ->
  exists C, MatrixMul.naive_multiplication rO radd rmul A B C0 dim = Some C
            /\ rep (fun _ _ => dim) C.
Proof.
  intros Hd. pose proof (dim_small Hd). unfold MatrixMul.naive_multiplication.
  apply naive_loops_rep; [exact Hd|].
  apply rep_init; [exact Hd|].
  unfold MatrixMul.result_bytes, size_t.
  rewrite (Z.mod_small (4 * dim)) by lia.
  rewrite Z.mod_small by nia. ring.
Qed.

Lemma matrix_multiplication_rep :
  0 <= dim ->
  exists C, MatrixMul.matrix_multiplication rO radd rmul A B C0 dim = Some C
            /\ rep (fun _ _ => dim) C.
Proof.
  intros Hd. pose proof (dim_small Hd).
  unfold MatrixMul.matrix_multiplication.
  assert (Hinit : rep (fun _ _ => 0)
                    (memset_zero rO C0 (MatrixMul.result_bytes dim))).
  { apply rep_init; [exact Hd|].
    unfold MatrixMul.result_bytes, size_t.
    rewrite (Z.mod_small (4 * dim)) by lia.
    rewrite Z.mod_small by nia. ring. }
  destruct (Z.leb_spec 256 dim).
  - apply blocked_loops_rep; [lia | exact Hinit].
  - apply naive_loops_rep; [exact Hd | exact Hinit].
Qed.

Lemma matrix_multiplication4_rep :
  0 <= dim -> dim * dim < 2 ^ 32 ->
  exists C, MatrixMul4.matrix_multiplication rO radd rmul A B C0 dim = Some C
            /\ rep (fun _ _ => dim) C.
Proof.
  intros Hd Hlt. pose proof (dim_small Hd).
  unfold MatrixMul4.matrix_multiplication.
  apply mm4_loops_rep; [exact Hd|].
  apply rep_init; [exact Hd|].
  unfold MatrixMul4.result_bytes, size_t.
  rewrite u32_small by nia. rewrite Z.mod_small by nia. ring.
Qed.

(** *** Factors that are zero leave the result buffer as it is *)

Lemma for_u32_keeps {St : Type} (Q : St -> Prop)
    (body : Z -> St -> option St) (lo hi step : Z) (s : St) :
  0 <= lo -> 0 < step -> hi + step <= 2 ^ 32 -> Q s ->
  (forall y t, lo <= y < hi -> Q t -> exists t', body y t = Some t' /\ Q t') ->
  exists s', for_u32 lo hi step body s = Some s' /\ Q s'.
Proof.
  intros Hlo Hstep Hwrap Hs Hbody.
  destruct (for_u32_inv (fun _ t => Q t) body lo hi step s)
    as (s' & y & Hrun & _ & _ & Hs'); auto.
  exists s'. auto.
Qed.

Lemma matrix_multiplication4_zero_factors :
  0 <= dim ->
  (forall x y, rmul (A x) (B y) = rO) ->
  exists C, MatrixMul4.matrix_multiplication rO radd rmul A B C0 dim = Some C
            /\ forall idx,
                 C idx = memset_zero rO C0 (MatrixMul4.result_bytes dim) idx.
Proof.
  intros Hd Hz. pose proof (dim_small Hd).
  unfold MatrixMul4.matrix_multiplication.
  set (C1 := memset_zero rO C0 (MatrixMul4.result_bytes dim)).
  apply (for_u32_keeps (fun C => forall idx, C idx = C1 idx));
    try lia; [reflexivity|].
  intros kk D Hkk HD. rewrite (u32_small (kk + 64)) by lia.
  apply (for_u32_keeps (fun C => forall idx, C idx = C1 idx));
    try lia; [exact HD|].
  clear D HD. intros jj D Hjj HD. rewrite (u32_small (jj + 64)) by lia.
  apply (for_u32_keeps (fun C => forall idx, C idx = C1 idx));
    try lia; [exact HD|].
  clear D HD. intros i D Hi HD.
  apply (for_u32_keeps (fun C => forall idx, C idx = C1 idx));
    try lia; [exact HD|].
  clear D HD. intros k D Hk HD.
  apply (for_u32_keeps (fun C => forall idx, C idx = C1 idx));
    try lia; [exact HD|].
  clear D HD. intros j D Hj HD.
  eexists. split; [reflexivity|].
  intros idx. unfold add_to, store. rewrite Hz.
  destruct (Z.eqb_spec idx (u32 (u32 (dim * i) + j))) as [->|];
    [|apply HD].
  rewrite HD. ring.
Qed.

Lemma partial_sum_zero (f : Z -> R) (n : nat) :
  (forall k, f k = rO) -> psum f n = rO.
Proof.
  intros Hf. induction n as [|n IH]; simpl; [reflexivity|].
  rewrite IH, Hf. ring.
Qed.
End Exact.

(** C9 as stated fails for [matrix_mul4.cc]: for [dim = 65536] the byte
    count [dim * dim * sizeof(float)] is computed in [unsigned int] and is
    0, the result buffer is not cleared, and with all factors zero the
    entry [C[0][0]] is what the buffer held before, here 1, and not the
    sum, which is 0. *)
Lemma C9_counterexample :
  exists C,
    MatrixMul4.matrix_multiplication 0 Z.add Z.mul
      (fun _ => 0) (fun _ => 0) (fun _ => 1) 65536 = Some C /\
    C 0 = 1 /\
    product_entry 0 Z.add Z.mul (fun _ => 0) (fun _ => 0) 65536 0 0 = 0.
Proof.
  destruct (matrix_multiplication4_zero_factors 0 1 Z.add Z.mul Z.sub Z.opp
              Zth (fun _ => 0) (fun _ => 0) (fun _ => 1) 65536)
    as (C & Hrun & HC).
  - reflexivity.
  - lia.
  - reflexivity.
  - exists C. split; [exact Hrun|]. split.
    + rewrite HC. reflexivity.
    + apply (partial_sum_zero 0 1 Z.add Z.mul Z.sub Z.opp Zth).
      reflexivity.
Qed.

(** C9, amended.  Over exact arithmetic (any ring), for square matrices
    of dimension [dim] with [dim * dim < 2^32], the routine of
    [matrix_mul.cpp], the routine of [matrix_mul4.cc] and the triple loop
    all return, every entry [C[i][j]] of the result is the sum over [k]
    of [A[i][k] * B[k][j]] whatever the result buffer held before, and
    the three results are the same buffer. *)
Theorem C9_matrix_routines_compute_the_product {R : Type}
    (rO rI : R) (radd rmul rsub : R -> R -> R) (ropp : R -> R)
    (Rth : ring_theory rO rI radd rmul rsub ropp eq)
    (A B C0 : buffer) (dim : Z) :
  0 <= dim -> dim * dim < 2 ^ 32 ->
  exists C1 C4 Cn,
    MatrixMul.matrix_multiplication rO radd rmul A B C0 dim = Some C1 /\
    MatrixMul4.matrix_multiplication rO radd rmul A B C0 dim = Some C4 /\
    MatrixMul.naive_multiplication rO radd rmul A B C0 dim = Some Cn /\
    (forall i j, 0 <= i < dim -> 0 <= j < dim ->
       C1 (i * dim + j) = product_entry rO radd rmul A B dim i j /\
       C4 (i * dim + j) = product_entry rO radd rmul A B dim i j /\
       Cn (i * dim + j) = product_entry rO radd rmul A B dim i j) /\
    (forall idx, C1 idx = Cn idx /\ C4 idx = Cn idx).
Proof.
  intros Hd Hlt.
  assert (Hle : dim * dim <= 2 ^ 32) by lia.
  destruct (matrix_multiplication_rep rO rI radd rmul rsub ropp Rth
              A B C0 dim Hle Hd) as (C1 & H1 & R1).
  destruct (matrix_multiplication4_rep rO radd rmul A B C0 dim Hle Hd Hlt)
    as (C4 & H4 & R4).
  destruct (naive_multiplication_rep rO radd rmul A B C0 dim Hle Hd)
    as (Cn & Hn & Rn).
  exists C1, C4, Cn. repeat (split; [assumption|]). split.
  - intros i j Hi Hj.
    destruct (rep_final rO radd rmul A B C0 dim _ _ (fun _ _ _ _ => eq_refl) R1)
      as [E1 _].
    destruct (rep_final rO radd rmul A B C0 dim _ _ (fun _ _ _ _ => eq_refl) R4)
      as [E4 _].
    destruct (rep_final rO radd rmul A B C0 dim _ _ (fun _ _ _ _ => eq_refl) Rn)
      as [En _].
    auto.
  - intros idx. split.
    + exact (rep_same rO radd rmul A B C0 dim Hle _ _ _ Hd R1 Rn idx).
    + exact (rep_same rO radd rmul A B C0 dim Hle _ _ _ Hd R4 Rn idx).
Qed.

Lemma C9_witness :
  0 <= 2 /\ 2 * 2 < 2 ^ 32 /\
  exists C1 C4 Cn,
    MatrixMul.matrix_multiplication 0 Z.add Z.mul
      two_by_two_a two_by_two_b (fun _ => 77) 2 = Some C1 /\
    MatrixMul4.matrix_multiplication 0 Z.add Z.mul
      two_by_two_a two_by_two_b (fun _ => 77) 2 = Some C4 /\
    MatrixMul.naive_multiplication 0 Z.add Z.mul
      two_by_two_a two_by_two_b (fun _ => 77) 2 = Some Cn /\
    (forall i j, 0 <= i < 2 -> 0 <= j < 2 ->
       C1 (i * 2 + j)
         = product_entry 0 Z.add Z.mul two_by_two_a two_by_two_b 2 i j /\
       C4 (i * 2 + j)
         = product_entry 0 Z.add Z.mul two_by_two_a two_by_two_b 2 i j /\
       Cn (i * 2 + j)
         = product_entry 0 Z.add Z.mul two_by_two_a two_by_two_b 2 i j) /\
    (forall idx, C1 idx = Cn idx /\ C4 idx = Cn idx).
Proof.
  split; [lia|]. split; [lia|].
  apply (C9_matrix_routines_compute_the_product 0 1 Z.add Z.mul Z.sub Z.opp
           Zth two_by_two_a two_by_two_b (fun _ => 77) 2); lia.
Defined.

(** * Further properties of the code *)

(** ** The order of the floating-point numbers *)

Ltac order_cases :=
  repeat match goal with
  | |- context [Z.compare ?x ?y] => destruct (Z.compare_spec x y)
  | |- context [Pos.compare_cont Eq ?x ?y] =>
      change (Pos.compare_cont Eq x y) with (Pos.compare x y);
      destruct (Pos.compare_spec x y)
  | H : context [Z.compare ?x ?y] |- _ => destruct (Z.compare_spec x y)
  | H : context [Pos.compare_cont Eq ?x ?y] |- _ =>
      change (Pos.compare_cont Eq x y) with (Pos.compare x y) in H;
      destruct (Pos.compare_spec x y)
  end.

Lemma flt_irrefl (a : float) : flt a a = false.
Proof.
  unfold flt, SFltb, SFcompare.
  destruct a as [[|]|[|]| |[|] m e]; simpl; try reflexivity;
    order_cases; simpl; try reflexivity; try lia.
Qed.

(** If [a < b] and [c] is not below [b], then [c] is not below [a]. *)
Lemma flt_below (a b c : float) :
  flt a b = true -> flt c b = false -> flt c a = false.
Proof.
  unfold flt, SFltb, SFcompare.
  destruct a as [[|]|[|]| |[|] ma ea], b as [[|]|[|]| |[|] mb eb],
           c as [[|]|[|]| |[|] mc ec];
    simpl; intros H1 H2; try reflexivity; try discriminate;
    order_cases; simpl in *; subst; try reflexivity; try discriminate; try lia.
Qed.

(** If [a < b] and [c] is not below [b], then [a < c] unless [c] is not a
    number. *)
Lemma flt_above (a b c : float) :
  flt a b = true -> flt c b = false -> c = S754_nan \/ flt a c = true.
Proof.
  unfold flt, SFltb, SFcompare.
  destruct a as [[|]|[|]| |[|] ma ea], b as [[|]|[|]| |[|] mb eb],
           c as [[|]|[|]| |[|] mc ec];
    simpl; intros H1 H2; try (left; reflexivity); right;
    try reflexivity; try discriminate;
    order_cases; simpl in *; subst; try reflexivity; try discriminate; try lia.
Qed.

(** ** Loops that complete *)

Lemma for_iter_total {St : Type} (P : Z -> St -> Prop)
    (body : Z -> St -> result St) (n : nat) :
  forall (i : Z) (s : St),
    (forall k t, i <= k < i + Z.of_nat n -> P k t ->
                 exists t', body k t = Ok t' /\ P (k + 1) t') ->
    P i s ->
    exists s', for_iter n i body s = Ok s' /\ P (i + Z.of_nat n) s'.
Proof.
  induction n as [|n IH]; intros i s Hstep Hs; simpl.
  - exists s. split; [reflexivity|].
    replace (i + Z.of_nat 0) with i by lia. exact Hs.
  - destruct (Hstep i s) as (t & -> & Ht); [lia | exact Hs |]. simpl.
    destruct (IH (i + 1) t) as (s' & Hrun & Hs'); [|exact Ht|].
    + intros k u Hk. apply Hstep. lia.
    + exists s'. split; [exact Hrun|].
      replace (i + Z.of_nat (S n)) with (i + 1 + Z.of_nat n) by lia.
      exact Hs'.
Qed.

Lemma for_range_total {St : Type} (P : Z -> St -> Prop)
    (body : Z -> St -> result St) (lo hi : Z) (s : St) :
  (forall k t, lo <= k < hi -> P k t ->
               exists t', body k t = Ok t' /\ P (k + 1) t') ->
  P lo s ->
  exists s', for_range lo hi body s = Ok s' /\ P (Z.max lo hi) s'.
Proof.
  intros Hstep Hs. unfold for_range.
  destruct (for_iter_total P body (Z.to_nat (hi - lo)) lo s) as (s' & Hr & Hs');
    [|exact Hs|].
  - intros k t Hk. apply Hstep. lia.
  - exists s'. split; [exact Hr|].
    replace (Z.max lo hi) with (lo + Z.of_nat (Z.to_nat (hi - lo))) by lia.
    exact Hs'.
Qed.

Lemma for_iter_ext {St : Type} (body body' : Z -> St -> result St) (n : nat) :
  forall (i : Z) (s : St),
    (forall k t, i <= k < i + Z.of_nat n -> body k t = body' k t) ->
    for_iter n i body s = for_iter n i body' s.
Proof.
  induction n as [|n IH]; intros i s H; simpl; [reflexivity|].
  rewrite H by lia. destruct (body' i s); simpl; try reflexivity.
  apply IH. intros k t Hk. apply H. lia.
Qed.

(** ** [euclid_dist_2] *)

Lemma euclid_dist_2_defined (numdims : Z) (coord1 coord2 : list float) :
  numdims <= Z.of_nat (length coord1) ->
  numdims <= Z.of_nat (length coord2) ->
  exists d, euclid_dist_2 numdims coord1 coord2 = Ok d.
Proof.
  intros H1 H2. unfold euclid_dist_2.
  destruct (for_range_total (fun _ _ => True)
              (fun i ans =>
                 a <- rd coord1 i ;
                 b <- rd coord2 i ;
                 Ok (fadd ans (fmul (fsub a b) (fsub a b))))
              0 numdims fzero) as (d & Hd & _); [|exact I|eauto].
  intros k t Hk _.
  destruct (rd_in_range coord1 k) as [a ->]; [lia|].
  destruct (rd_in_range coord2 k) as [b ->]; [lia|].
  simpl. eauto.
Qed.

(** X1.  The distance is defined exactly when both points have the
    [numdims] coordinates the loop reads. *)
Theorem euclid_dist_2_defined_iff (numdims : Z) (coord1 coord2 : list float) :
  (exists d, euclid_dist_2 numdims coord1 coord2 = Ok d) <->
  numdims <= 0 \/
  (numdims <= Z.of_nat (length coord1) /\
   numdims <= Z.of_nat (length coord2)).
Proof.
  split.
  - unfold euclid_dist_2. intros [d H].
    destruct (Z_le_gt_dec numdims 0) as [Hn|Hn]; [left; exact Hn | right].
    apply (for_range_inv
             (fun k _ => k <= Z.of_nat (length coord1) /\
                         k <= Z.of_nat (length coord2))) in H.
    + lia.
    + intros k t t' Hk _ Hb.
      apply bind_Ok in Hb as (a & Ea & Hb).
      apply bind_Ok in Hb as (b & Eb & _).
      apply rd_bounds in Ea. apply rd_bounds in Eb. lia.
    + lia.
  - intros [H|[H1 H2]]; [|apply euclid_dist_2_defined; assumption].
    exists fzero. unfold euclid_dist_2, for_range.
    replace (Z.to_nat (numdims - 0)) with 0%nat by lia. reflexivity.
Qed.

Lemma fabs_binary_round (s : bool) (m : positive) (e : Z) :
  SFabs (binary_round 24 128 s m e) = SFabs (binary_round 24 128 false m e).
Proof.
  unfold binary_round, binary_round_aux.
  destruct (shl_align _ _ _) as [mz ez].
  destruct (shr_fexp _ _ _ _ _) as [mrs e'].
  destruct (shr_fexp _ _ _ _ _) as [mrs' e''].
  destruct (shr_m mrs'); try reflexivity.
  destruct (_ <=? _); reflexivity.
Qed.

Lemma fabs_binary_normalize_opp (m e : Z) :
  SFabs (binary_normalize 24 128 (- m) e false)
  = SFabs (binary_normalize 24 128 m e false).
Proof.
  destruct m as [|p|p]; simpl; [reflexivity| |].
  - apply fabs_binary_round.
  - symmetry. apply fabs_binary_round.
Qed.

Lemma fabs_fsub_sym (x y : float) :
  SFabs (fsub x y) = SFabs (fsub y x).
Proof.
  unfold fsub, SFsub.
  destruct x as [[|]|[|]| |sx mx ex], y as [[|]|[|]| |sy my ey];
    try reflexivity.
  rewrite (Z.min_comm ey ex).
  rewrite <- fabs_binary_normalize_opp. f_equal. f_equal. lia.
Qed.

Lemma fmul_square_fabs (u : float) : fmul u u = fmul (SFabs u) (SFabs u).
Proof. destruct u as [[|]|[|]| |[|] m e]; reflexivity. Qed.

Lemma square_diff_sym (x y : float) :
  fmul (fsub x y) (fsub x y) = fmul (fsub y x) (fsub y x).
Proof.
  rewrite (fmul_square_fabs (fsub x y)), (fmul_square_fabs (fsub y x)).
  rewrite (fabs_fsub_sym x y). reflexivity.
Qed.

(** X2.  The distance from [a] to [b] is the distance from [b] to [a], also
    in floating point and also when it is undefined. *)
Theorem euclid_dist_2_symmetric (numdims : Z) (coord1 coord2 : list float) :
  euclid_dist_2 numdims coord1 coord2 = euclid_dist_2 numdims coord2 coord1.
Proof.
  unfold euclid_dist_2, for_range. apply for_iter_ext. intros k t _.
  pose proof (rd_terminates coord1 k) as T1.
  pose proof (rd_terminates coord2 k) as T2.
  unfold terminates in *.
  destruct (rd coord1 k) as [a| |], (rd coord2 k) as [b| |]; simpl;
    try reflexivity; try congruence.
  rewrite (square_diff_sym a b). reflexivity.
Qed.

Lemma sign_clear_binary_round (m : positive) (e : Z) :
  sign_clear (binary_round 24 128 false m e).
Proof.
  unfold binary_round, binary_round_aux.
  destruct (shl_align _ _ _) as [mz ez].
  destruct (shr_fexp _ _ _ _ _) as [mrs e'].
  destruct (shr_fexp _ _ _ _ _) as [mrs' e''].
  destruct (shr_m mrs'); simpl; auto.
  destruct (_ <=? _); reflexivity.
Qed.

Lemma sign_clear_square (u : float) : sign_clear (fmul u u).
Proof.
  destruct u as [[|]|[|]| |[|] m e]; simpl; auto;
    unfold fmul, SFmul, binary_round_aux; simpl;
    destruct (shr_fexp _ _ _ _ _) as [mrs e'];
    destruct (shr_fexp _ _ _ _ _) as [mrs' e''];
    destruct (shr_m mrs'); simpl; auto;
    destruct (_ <=? _); reflexivity.
Qed.

Lemma sign_clear_fadd (x y : float) :
  sign_clear x -> sign_clear y -> sign_clear (fadd x y).
Proof.
  destruct x as [sx|sx| |sx mx ex], y as [sy|sy| |sy my ey]; simpl;
    intros Hx Hy; subst; simpl; auto.
  unfold fadd, SFadd. simpl. apply sign_clear_binary_round.
Qed.

Lemma sign_clear_not_below_zero (x : float) :
  sign_clear x -> flt x fzero = false.
Proof. destruct x as [s|s| |s m e]; simpl; intros H; subst; reflexivity. Qed.

(** X3.  The distance is never below zero (it can be no number at all). *)
Theorem euclid_dist_2_not_negative (numdims : Z) (coord1 coord2 : list float)
    (d : float) :
  euclid_dist_2 numdims coord1 coord2 = Ok d -> flt d fzero = false.
Proof.
  unfold euclid_dist_2. intros H. apply sign_clear_not_below_zero.
  revert H. apply (for_range_preserves sign_clear); [|reflexivity].
  intros k t t' _ Ht Hb.
  apply bind_Ok in Hb as (a & _ & Hb). apply bind_Ok in Hb as (b & _ & Hb).
  inv_ok Hb. apply sign_clear_fadd; [exact Ht | apply sign_clear_square].
Qed.

(** ** [find_nearest_cluster] *)

(** X4.  Whenever the helper returns, it returns the first of the nearest
    centres: its index [index] is in range, no centre is nearer than the
    centre [index], and every centre before it is farther, or at a
    distance that is no number. *)
Theorem find_nearest_cluster_first_minimum (numClusters numCoords : Z)
    (object : list float) (clusters : list (list float)) (index : Z) :
  find_nearest_cluster numClusters numCoords object clusters = Ok index ->
  0 <= index < Z.max 1 numClusters /\
  exists dmin,
    sq_dist numCoords object clusters index = Ok dmin /\
    forall j d, 0 <= j < numClusters ->
      sq_dist numCoords object clusters j = Ok d ->
      flt d dmin = false /\
      (j < index -> d = S754_nan \/ flt dmin d = true).
Proof.
  unfold find_nearest_cluster. intros H.
  apply bind_Ok in H as (c0 & E0 & H).
  apply bind_Ok in H as (d0 & Ed0 & H).
  apply bind_Ok in H as ([ix dm] & Eloop & H). inv_ok H.
  apply (for_range_inv
    (fun i (p : Z * float) =>
       0 <= fst p < i /\
       sq_dist numCoords object clusters (fst p) = Ok (snd p) /\
       forall j d, 0 <= j < i ->
         sq_dist numCoords object clusters j = Ok d ->
         flt d (snd p) = false /\
         (j < fst p -> d = S754_nan \/ flt (snd p) d = true))) in Eloop.
  - simpl in Eloop. destruct Eloop as (Hr & Hd & Hall).
    split; [lia|]. exists dm. split; [exact Hd|].
    intros j d Hj. apply Hall. lia.
  - intros i [x m] [x' m'] Hi (Hr & Hd & Hall) Hb. simpl in *.
    apply bind_Ok in Hb as (ci & Eci & Hb).
    apply bind_Ok in Hb as (dist & Edist & Hb).
    assert (Hsq : sq_dist numCoords object clusters i = Ok dist).
    { unfold sq_dist. rewrite Eci. exact Edist. }
    destruct (flt dist m) eqn:Hlt; injection Hb as <- <-; simpl.
    + split; [lia|]. split; [exact Hsq|].
      intros j d Hj Hdj. destruct (Z.eq_dec j i) as [Heq|Hne]; [subst j|].
      * rewrite Hsq in Hdj. inv_ok Hdj. split; [apply flt_irrefl | lia].
      * destruct (Hall j d ltac:(lia) Hdj) as [Hge _]. split.
        -- eapply flt_below; eauto.
        -- intros _. eapply flt_above; eauto.
    + split; [lia|]. split; [exact Hd|].
      intros j d Hj Hdj. destruct (Z.eq_dec j i) as [Heq|Hne]; [subst j|].
      * rewrite Hsq in Hdj. inv_ok Hdj. split; [exact Hlt | lia].
      * apply Hall; [lia | exact Hdj].
  - simpl. split; [lia|]. split.
    + unfold sq_dist. rewrite E0. exact Ed0.
    + intros j d Hj Hdj. assert (j = 0) by lia. subst j.
      unfold sq_dist in Hdj. rewrite E0 in Hdj. simpl in Hdj.
      rewrite Ed0 in Hdj. inv_ok Hdj. split; [apply flt_irrefl | lia].
Qed.

Lemma euclid_dist_2_not_negative_witness :
  euclid_dist_2 1 (point 0) (point 10) = Ok (f32 100 0) /\
  flt (f32 100 0) fzero = false.
Proof.
  split; [vm_compute; reflexivity|].
  apply (euclid_dist_2_not_negative 1 (point 0) (point 10) (f32 100 0)).
  vm_compute. reflexivity.
Defined.

Lemma find_nearest_cluster_first_minimum_witness :
  find_nearest_cluster 2 1 (point 11) [point 0; point 10] = Ok 1 /\
  0 <= 1 < Z.max 1 2 /\
  exists dmin,
    sq_dist 1 (point 11) [point 0; point 10] 1 = Ok dmin /\
    forall j d, 0 <= j < 2 ->
      sq_dist 1 (point 11) [point 0; point 10] j = Ok d ->
      flt d dmin = false /\
      (j < 1 -> d = S754_nan \/ flt dmin d = true).
Proof.
  split; [vm_compute; reflexivity|].
  apply (find_nearest_cluster_first_minimum 2 1 (point 11)
           [point 0; point 10] 1).
  vm_compute. reflexivity.
Defined.

(** X5.  On centres and an object that have their coordinates the helper
    returns, with an index below [numClusters]. *)
Theorem find_nearest_cluster_total (numClusters numCoords : Z)
    (object : list float) (clusters : list (list float)) :
  0 < numClusters <= Z.of_nat (length clusters) ->
  numCoords <= Z.of_nat (length object) ->
  Forall (fun row => numCoords <= Z.of_nat (length row)) clusters ->
  exists index,
    find_nearest_cluster numClusters numCoords object clusters = Ok index /\
    0 <= index < numClusters.
Proof.
  intros HK HM Hrows.
  assert (Hdist : forall i, 0 <= i < numClusters ->
            exists ci d, rd clusters i = Ok ci /\
                         euclid_dist_2 numCoords object ci = Ok d).
  { intros i Hi. destruct (rd_in_range clusters i) as [ci Hci]; [lia|].
    assert (Hlen : numCoords <= Z.of_nat (length ci)).
    { apply rd_Ok in Hci as [_ Hci].
      rewrite Forall_forall in Hrows. apply Hrows.
      eapply list_elem_of_lookup_2. exact Hci. }
    destruct (euclid_dist_2_defined numCoords object ci HM Hlen) as [d Hd].
    exists ci, d. auto. }
  unfold find_nearest_cluster.
  destruct (Hdist 0 ltac:(lia)) as (c0 & d0 & -> & Hd0). cbn [bind].
  rewrite Hd0. cbn [bind].
  destruct (for_range_total (fun i (p : Z * float) => 0 <= fst p < i)
              (fun i '(index, min_dist) =>
                 ci <- rd clusters i ;
                 dist <- euclid_dist_2 numCoords object ci ;
                 if flt dist min_dist then Ok (i, dist)
                 else Ok (index, min_dist))
              1 numClusters (0, d0)) as ([index dm] & -> & Hp).
  - intros k [x m] Hk Hx. simpl in Hx.
    destruct (Hdist k ltac:(lia)) as (ck & dk & -> & Hdk).
    cbn [bind]. rewrite Hdk. cbn [bind].
    destruct (flt dk m); eexists; (split; [reflexivity|]); simpl; lia.
  - simpl. lia.
  - cbn [bind]. exists index. split; [reflexivity|]. simpl in Hp. lia.
Qed.

Lemma find_nearest_cluster_total_witness :
  exists index,
    find_nearest_cluster 2 1 (point 11) [point 0; point 10] = Ok index /\
    0 <= index < 2.
Proof.
  apply (find_nearest_cluster_total 2 1 (point 11) [point 0; point 10]).
  - simpl. lia.
  - simpl. lia.
  - repeat constructor; simpl; lia.
Defined.

(** ** The inlined search against the helper *)

Lemma for_iter_sim {St1 St2 : Type} (Rel : St1 -> St2 -> Prop)
    (body1 : Z -> St1 -> result St1) (body2 : Z -> St2 -> result St2)
    (n : nat) :
  forall (i : Z) (s1 : St1) (s2 : St2),
    (forall k t1 t2, i <= k < i + Z.of_nat n -> Rel t1 t2 ->
                     same_outcome Rel (body1 k t1) (body2 k t2)) ->
    Rel s1 s2 ->
    same_outcome Rel (for_iter n i body1 s1) (for_iter n i body2 s2).
Proof.
  induction n as [|n IH]; intros i s1 s2 Hstep Hs; simpl; [exact Hs|].
  pose proof (Hstep i s1 s2 ltac:(lia) Hs) as Hb.
  destruct (body1 i s1) as [t1| |], (body2 i s2) as [t2| |]; simpl in *;
    try contradiction; auto.
  apply IH; [|exact Hb]. intros k u1 u2 Hk. apply Hstep. lia.
Qed.

Lemma for_range_sim {St1 St2 : Type} (Rel : St1 -> St2 -> Prop)
    (body1 : Z -> St1 -> result St1) (body2 : Z -> St2 -> result St2)
    (lo hi : Z) (s1 : St1) (s2 : St2) :
  (forall k t1 t2, lo <= k < hi -> Rel t1 t2 ->
                   same_outcome Rel (body1 k t1) (body2 k t2)) ->
  Rel s1 s2 ->
  same_outcome Rel (for_range lo hi body1 s1) (for_range lo hi body2 s2).
Proof.
  intros Hstep Hs. unfold for_range. apply for_iter_sim; [|exact Hs].
  intros k t1 t2 Hk. apply Hstep. lia.
Qed.

Lemma nearest_inlined_sim (c : config) (i : Z)
    (object : list float) (clusters : list (list float)) :
  same_outcome (fun x y => x = (if y =? 0 then 0 else i))
    (nearest_inlined c i object clusters)
    (find_nearest_cluster (numClusters c) (numCoords c) object clusters).
Proof.
  unfold nearest_inlined, find_nearest_cluster.
  destruct (rd clusters 0) as [c0| |]; try exact I. cbn [bind].
  destruct (euclid_dist_2 (numCoords c) object c0) as [d0| |];
    try exact I. cbn [bind].
  assert (Hsim : same_outcome
    (fun (p q : Z * float) =>
       snd p = snd q /\ fst p = (if fst q =? 0 then 0 else i))
    (for_range 1 (numClusters c)
       (fun j '(index, min_dist) =>
          coord2 <- rd clusters j ;
          dist <-
            for_range 0 (numCoords c)
              (fun k dist =>
                 a <- rd object k ;
                 b <- rd coord2 k ;
                 Ok (fadd dist (fmul (fsub a b) (fsub a b))))
              fzero ;
          if flt dist min_dist then Ok (i, dist) else Ok (index, min_dist))
       (0, d0))
    (for_range 1 (numClusters c)
       (fun i0 '(index, min_dist) =>
          ci <- rd clusters i0 ;
          dist <- euclid_dist_2 (numCoords c) object ci ;
          if flt dist min_dist then Ok (i0, dist) else Ok (index, min_dist))
       (0, d0))).
  { apply for_range_sim; [|split; reflexivity].
    intros k [y1 n1] [y2 n2] Hk [Hm Hy]. simpl in Hm, Hy. subst n2.
    destruct (rd clusters k) as [ck| |]; simpl; auto.
    change (for_range 0 (numCoords c)
              (fun k0 dist => a <- rd object k0 ; b <- rd ck k0 ;
                 Ok (fadd dist (fmul (fsub a b) (fsub a b)))) fzero)
      with (euclid_dist_2 (numCoords c) object ck).
    destruct (euclid_dist_2 (numCoords c) object ck) as [dk| |]; simpl; auto.
    destruct (flt dk n1); simpl; split; auto.
    destruct (Z.eqb_spec k 0); [lia | reflexivity]. }
  match type of Hsim with same_outcome _ ?x ?y =>
    destruct x as [[x1 m1]| |], y as [[x2 m2]| |] end;
    simpl in Hsim; try contradiction; simpl; try exact I.
  destruct Hsim as [_ ->]. reflexivity.
Qed.

(** X6.  With one worker, the search inlined in [omp_kmeans] for the
    object of index [i] yields 0 when the helper [find_nearest_cluster]
    yields 0, and [i] when the helper yields any other centre; it is
    undefined when the helper is.  (With several workers the inner sum of
    the source races on [k]; the property is not stated for them.) *)
Theorem nearest_inlined_against_helper (c : config) (i : Z)
    (object : list float) (clusters : list (list float)) :
  nthreads c = 1 ->
  nearest_inlined c i object clusters =
  (index <- find_nearest_cluster (numClusters c) (numCoords c) object clusters ;
   Ok (if index =? 0 then 0 else i)).
Proof.
  intros _.
  pose proof (nearest_inlined_sim c i object clusters) as H.
  destruct (nearest_inlined c i object clusters) as [x| |],
    (find_nearest_cluster (numClusters c) (numCoords c) object clusters)
    as [y| |]; simpl in H; try contradiction; simpl; congruence.
Qed.

Lemma nearest_inlined_against_helper_witness :
  nthreads one_worker = 1 /\
  nearest_inlined one_worker 2 (point 11) [point 0; point 10] =
  (index <- find_nearest_cluster 2 1 (point 11) [point 0; point 10] ;
   Ok (if index =? 0 then 0 else 2)).
Proof.
  split; [reflexivity|].
  apply (nearest_inlined_against_helper one_worker 2 (point 11)
           [point 0; point 10]).
  reflexivity.
Defined.

(** ** The state before the loop *)

Lemma wr2_length {A : Type} (a a' : list (list A)) (i j : Z) (v : A) :
  wr2 a i j v = Ok a' -> length a' = length a.
Proof.
  unfold wr2. intros H.
  apply bind_Ok in H as (row & _ & H). apply bind_Ok in H as (row' & _ & H).
  eapply wr_length; eauto.
Qed.

Lemma rd_alloc {A : Type} (n i : Z) (x y : A) :
  rd (alloc n x) i = Ok y -> y = x.
Proof.
  intros H. apply rd_Ok in H as [_ H]. unfold alloc in H.
  apply lookup_replicate in H as [-> _]. reflexivity.
Qed.

Lemma init_heap_shape (c : config) (objs : list (list float)) (h : heap) :
  init_heap c objs = Ok h ->
  h = set_membership (set_clusters (fresh_heap c objs) (clusters h))
        (membership h) /\
  length (clusters h) = Z.to_nat (numClusters c) /\
  length (membership h) = Z.to_nat (numObjs c) /\
  (forall i, 0 <= i < numObjs c -> rd (membership h) i = Ok (-1)) /\
  (forall i j, 0 <= i < numClusters c -> 0 <= j < numCoords c ->
     exists x, rd2 objs i j = Ok x /\ rd2 (clusters h) i j = Ok x).
Proof.
  unfold init_heap. fold (fresh_heap c objs). intros H.
  destruct ((numClusters c <=? 0) || (nthreads c <=? 0)); [discriminate|].
  apply bind_Ok in H as (h1 & E1 & H).
  (* the copy of the first centres *)
  assert (H1 :
    (h1 = set_clusters (fresh_heap c objs) (clusters h1) /\
     length (clusters h1) = Z.to_nat (numClusters c)) /\
    forall i j, 0 <= i < Z.max 0 (numClusters c) -> 0 <= j < numCoords c ->
      exists x, rd2 objs i j = Ok x /\ rd2 (clusters h1) i j = Ok x).
  { revert E1.
    apply (for_range_inv (fun k t =>
      (t = set_clusters (fresh_heap c objs) (clusters t) /\
       length (clusters t) = Z.to_nat (numClusters c)) /\
      forall i j, 0 <= i < k -> 0 <= j < numCoords c ->
        exists x, rd2 objs i j = Ok x /\ rd2 (clusters t) i j = Ok x)).
    - intros k t t' Hk [Hf Hdone] Hrow.
      assert (Hrow' :
        (t' = set_clusters (fresh_heap c objs) (clusters t') /\
         length (clusters t') = Z.to_nat (numClusters c)) /\
        forall i j, 0 <= i < k \/ (i = k /\ j < Z.max 0 (numCoords c)) ->
          0 <= j < numCoords c ->
          exists x, rd2 objs i j = Ok x /\ rd2 (clusters t') i j = Ok x).
      { revert Hrow.
        apply (for_range_inv (fun l u =>
          (u = set_clusters (fresh_heap c objs) (clusters u) /\
           length (clusters u) = Z.to_nat (numClusters c)) /\
          forall i j, 0 <= i < k \/ (i = k /\ j < l) ->
            0 <= j < numCoords c ->
            exists x, rd2 objs i j = Ok x /\ rd2 (clusters u) i j = Ok x)).
        - intros l u u' Hl [[Hu Hlen] Hcells] Hb.
          apply bind_Ok in Hb as (x & Ex & Hb).
          apply bind_Ok in Hb as (cs' & Ecs & Hb). inv_ok Hb.
          assert (Hobj : objects u = objs) by (rewrite Hu; reflexivity).
          rewrite Hobj in Ex. split; [split|].
          + rewrite Hu. reflexivity.
          + simpl. rewrite (wr2_length _ _ _ _ _ Ecs). exact Hlen.
          + intros i j Hij Hj. simpl.
            destruct (Z.eq_dec i k) as [Hik|Hik].
            * subst i. destruct (Z.eq_dec j l) as [Hjl|Hjl].
              -- subst j. exists x. split; [exact Ex|].
                 eapply rd2_wr2_same; eauto.
              -- rewrite (rd2_wr2_other_col _ _ _ _ _ _ Ecs Hjl).
                 apply Hcells; [right; lia | exact Hj].
            * rewrite (rd2_wr2_other_row _ _ _ _ _ j _ Ecs Hik).
              apply Hcells; [left; lia | exact Hj].
        - split; [exact Hf|]. intros i j Hij Hj. apply Hdone; lia. }
      destruct Hrow' as [Hf' Hcells]. split; [exact Hf'|].
      intros i j Hi Hj. apply Hcells; lia.
    - split; [split; [reflexivity|]|].
      + simpl. unfold alloc. apply length_replicate.
      + intros; lia. }
  destruct H1 as [[Hf1 Hlen1] Hcopy].
  (* the membership of every object *)
  assert (H2 :
    (h = set_membership h1 (membership h) /\
     length (membership h) = Z.to_nat (numObjs c)) /\
    forall i, 0 <= i < Z.max 0 (numObjs c) -> rd (membership h) i = Ok (-1)).
  { revert H.
    apply (for_range_inv (fun k t =>
      (t = set_membership h1 (membership t) /\
       length (membership t) = Z.to_nat (numObjs c)) /\
      forall i, 0 <= i < k -> rd (membership t) i = Ok (-1))).
    - intros k t t' Hk [[Ht Hlen] Hdone] Hb.
      apply bind_Ok in Hb as (mem' & Em & Hb). inv_ok Hb.
      split; [split|].
      + rewrite Ht. reflexivity.
      + simpl. rewrite (wr_length _ _ _ _ Em). exact Hlen.
      + intros i Hi. simpl. destruct (Z.eq_dec i k) as [Hik|Hik].
        * subst i. eapply rd_wr_same; eauto.
        * rewrite (rd_wr_other _ _ _ _ _ Em Hik). apply Hdone. lia.
    - split; [split|].
      + rewrite Hf1. reflexivity.
      + rewrite Hf1. simpl. unfold alloc. apply length_replicate.
      + intros; lia. }
  destruct H2 as [[Hf2 Hlen2] Hmem].
  assert (Hcl : clusters h = clusters h1) by (rewrite Hf2; reflexivity).
  split; [|split; [|split; [|split]]].
  - rewrite Hf2 at 1. rewrite Hf1 at 1. rewrite Hcl. reflexivity.
  - rewrite Hcl. exact Hlen1.
  - exact Hlen2.
  - intros i Hi. apply Hmem. lia.
  - intros i j Hi Hj. rewrite Hcl. apply Hcopy; lia.
Qed.

(** X7.  Before the first pass the centres are the first [numClusters]
    objects, every membership value is the sentinel -1, and every
    accumulator is zero. *)
Theorem init_heap_first_centres (c : config) (objs : list (list float))
    (h : heap) :
  init_heap c objs = Ok h ->
  (forall i j, 0 <= i < numClusters c -> 0 <= j < numCoords c ->
     exists x, rd2 objs i j = Ok x /\ rd2 (clusters h) i j = Ok x) /\
  (forall i, 0 <= i < numObjs c -> rd (membership h) i = Ok (-1)) /\
  newClusterSize h = alloc (numClusters c) 0 /\
  newClusters h = alloc (numClusters c) (alloc (numCoords c) fzero) /\
  local_newClusterSize h = alloc (nthreads c * numClusters c) 0 /\
  local_newClusters h =
    alloc (nthreads c * numClusters c) (alloc (numCoords c) fzero).
Proof.
  intros H. apply init_heap_shape in H as (Hh & _ & _ & Hmem & Hcl).
  split; [exact Hcl|]. split; [exact Hmem|].
  rewrite Hh. simpl. auto.
Qed.

(** ** The first pass ends the loop *)

Lemma first_pass_counts_nothing (c : config) (h h' : heap) :
  delta h = 0 ->
  (forall i, 0 <= i < numObjs c -> rd (membership h) i = Ok (-1)) ->
  assign_phase c h = Ok h' -> delta h' = 0.
Proof.
  intros Hd Hm H.
  apply (for_range_inv (fun k t =>
    delta t = 0 /\
    forall i, k <= i < numObjs c -> rd (membership t) i = Ok (-1))) in H.
  - tauto.
  - intros k t t' Hk [Hdt Hmt] Hb.
    apply assign_point_effect in Hb
      as (o & old & ix & _ & Hix & Hold & _ & Hoth & Hdelta).
    rewrite Hmt in Hold by lia. inv_ok Hold.
    apply nearest_inlined_zero_or_self in Hix. split.
    + rewrite Hdelta, Hdt.
      destruct (Z.eqb_spec (-1) ix); [lia | reflexivity].
    + intros i Hi. rewrite Hoth by lia. apply Hmt. lia.
  - split; [exact Hd|]. intros i Hi. apply Hm. lia.
Qed.

Lemma first_pass_delta (c : config) (objs : list (list float))
    (h0 h1 : heap) :
  init_heap c objs = Ok h0 -> iteration c h0 = Ok h1 -> delta h1 = 0.
Proof.
  intros Hinit Hit.
  apply init_heap_shape in Hinit as (Hh0 & _ & _ & Hmem & _).
  unfold iteration in Hit.
  apply bind_Ok in Hit as (ha & Ea & Hit).
  apply bind_Ok in Hit as (hr & Er & Hit).
  apply first_pass_counts_nothing in Ea; [|rewrite Hh0; reflexivity|exact Hmem].
  apply reduce_phase_frame in Er as [_ _ _ Hdr _].
  apply update_phase_frame in Hit as [_ _ _ _ Hdu _].
  congruence.
Qed.

Lemma int_mul_0_l (m : Z) : int_mul 0 m = Ok 0.
Proof. reflexivity. Qed.

(** From a state the initialisation leaves, the loop is over after the
    first pass, whatever the scale. *)
Lemma first_pass_ends_loop (c : config) (objs : list (list float))
    (magnitude : Z) (h0 : heap) (fuel : nat) :
  0 <= numObjs c ->
  init_heap c objs = Ok h0 ->
  do_while (S fuel) (loop_body c magnitude) (numObjs c) h0 =
  (h1 <- iteration c h0 ; Ok (h1, 1%nat)).
Proof.
  intros HN Hinit. cbn [do_while]. unfold loop_body.
  destruct (iteration c h0) as [h1| |] eqn:Hit; try reflexivity.
  cbn [bind].
  pose proof (first_pass_delta c objs h0 h1 Hinit Hit) as Hd.
  rewrite Hd, int_mul_0_l. cbn [bind].
  unfold loop_test. cbn [delta set_delta loop].
  destruct (Z.gtb_spec 0 (numObjs c)) as [Hgt|_]; [lia|].
  destruct h1; cbn in Hd; subst; reflexivity.
Qed.

(** X8.  A call with [numObjs >= 0] is one pass of the loop body over the
    initial state, whatever the threshold: in the first pass no new
    assignment equals the sentinel, [delta] is 0, and the loop test
    fails. *)
Theorem omp_kmeans_is_one_pass (c : config) (objs : list (list float))
    (threshold : float) (magnitude : Z) :
  0 <= numObjs c ->
  magnitude_of threshold = Ok magnitude ->
  omp_kmeans c objs threshold =
  (h0 <- init_heap c objs ; h1 <- iteration c h0 ; Ok (h1, 1%nat)).
Proof.
  intros HN Hm. unfold omp_kmeans. rewrite Hm. cbn [bind].
  destruct (init_heap c objs) as [h0| |] eqn:Hinit; try reflexivity.
  cbn [bind]. change 502%nat with (S 501).
  apply (first_pass_ends_loop c objs magnitude h0 501 HN Hinit).
Qed.

Lemma omp_kmeans_is_one_pass_witness :
  0 <= numObjs four_workers /\
  magnitude_of (f32 1 (-10)) = Ok 1024 /\
  omp_kmeans four_workers three_points (f32 1 (-10)) =
  (h0 <- init_heap four_workers three_points ;
   h1 <- iteration four_workers h0 ; Ok (h1, 1%nat)).
Proof.
  split; [simpl; lia|]. split; [reflexivity|].
  apply (omp_kmeans_is_one_pass four_workers three_points (f32 1 (-10)) 1024);
    [simpl; lia | reflexivity].
Defined.

(** ** The loop on the calls the interface admits *)





(** C7.  The claim: on every valid input with [threshold = 1.0] the loop
    is over after exactly one pass.  The code on the valid input of three
    points, two clusters and one worker: the scale is 1 as the claim has
    it, but the first pass does not complete; the accumulator access for
    the point 11 is outside its block (C10), and the call has no
    result. *)
Theorem C7_first_pass_is_undefined_on_a_valid_input :
  valid_input one_worker three_points fone /\
  magnitude_of fone = Ok 1 /\
  (exists h0, init_heap one_worker three_points = Ok h0 /\
              iteration one_worker h0 = Undefined) /\
  omp_kmeans one_worker three_points fone = Undefined.
Proof.
  split; [|split; [reflexivity|split]].
  - split; simpl; try lia; try (split; reflexivity). repeat constructor.
  - eexists. split; [vm_compute; reflexivity|]. vm_compute. reflexivity.
  - vm_compute. reflexivity.
Qed.

(** ** More clusters than objects *)

(** X10.  When there are fewer objects than clusters the call is undefined:
    the copy of the first centres reads [objects] past its end. *)
Theorem omp_kmeans_too_few_objects (c : config) (objs : list (list float))
    (threshold : float) :
  Z.of_nat (length objs) < numClusters c -> 0 < numCoords c ->
  omp_kmeans c objs threshold = Undefined.
Proof.
  intros HK HM.
  destruct (omp_kmeans c objs threshold) as [[h n]| |] eqn:Hrun;
    [exfalso | reflexivity
     | exfalso; exact (omp_kmeans_terminates c objs threshold Hrun)].
  unfold omp_kmeans in Hrun.
  apply bind_Ok in Hrun as (m & _ & Hrun).
  apply bind_Ok in Hrun as (h0 & Hinit & _).
  apply init_heap_shape in Hinit as (_ & _ & _ & _ & Hcopy).
  destruct (Hcopy (Z.of_nat (length objs)) 0) as (x & Hx & _); [lia | lia|].
  unfold rd2 in Hx. apply bind_Ok in Hx as (row & Hrow & _).
  apply rd_bounds in Hrow. lia.
Qed.

Lemma omp_kmeans_too_few_objects_witness :
  Z.of_nat (length [point 0]) < 2 /\ 0 < 1 /\
  omp_kmeans {| numCoords := 1; numObjs := 1; numClusters := 2;
                nthreads := 1; tid_of := fun _ => 0 |}
    [point 0] fone = Undefined.
Proof.
  split; [simpl; lia|]. split; [lia|].
  apply omp_kmeans_too_few_objects; simpl; lia.
Defined.

(** ** What a call returns in [membership] *)

Lemma assign_phase_membership (c : config) (h h' : heap) :
  assign_phase c h = Ok h' ->
  forall j, 0 <= j < numObjs c ->
    exists o index,
      rd (objects h) j = Ok o /\
      nearest_inlined c j o (clusters h) = Ok index /\
      rd (membership h') j = Ok index.
Proof.
  unfold assign_phase. intros H.
  assert (Hinv :
    (objects h' = objects h /\ clusters h' = clusters h) /\
    forall j, 0 <= j < Z.max 0 (numObjs c) ->
      exists o index,
        rd (objects h) j = Ok o /\
        nearest_inlined c j o (clusters h) = Ok index /\
        rd (membership h') j = Ok index).
  { revert H.
    apply (for_range_inv (fun k t =>
      (objects t = objects h /\ clusters t = clusters h) /\
      forall j, 0 <= j < k ->
        exists o index,
          rd (objects h) j = Ok o /\
          nearest_inlined c j o (clusters h) = Ok index /\
          rd (membership t) j = Ok index)).
    - intros k t t' Hk [[Ho Hc] Ht] Hb.
      pose proof (assign_point_frame _ _ _ _ Hb) as [Ho' Hc' _ _ _ _ _].
      apply assign_point_effect in Hb
        as (o & old & ix & Hobj & Hix & _ & Hnew & Hoth & _).
      split; [split; congruence|].
      intros j Hj. destruct (Z.eq_dec j k) as [Heq|Hne]; [subst j|].
      + exists o, ix. rewrite <- Ho, <- Hc. auto.
      + destruct (Ht j ltac:(lia)) as (o' & ix' & H1 & H2 & H3).
        exists o', ix'. rewrite Hoth by exact Hne. auto.
    - split; [split; reflexivity|]. intros j Hj. lia. }
  intros j Hj. apply Hinv. lia.
Qed.

(** X9.  What a call with one worker returns in [membership]: the value
    of the object [i] is 0 when the centre nearest to it among the initial
    centres is centre 0, and [i] itself, the index of the object, in every
    other case.  (With several workers the inner sum of the source races
    on [k]; the property is not stated for them.) *)
Theorem omp_kmeans_membership_value (c : config) (objs : list (list float))
    (threshold : float) (h : heap) (n : nat) :
  nthreads c = 1 ->
  omp_kmeans c objs threshold = Ok (h, n) ->
  exists h0,
    init_heap c objs = Ok h0 /\
    forall i, 0 <= i < numObjs c ->
      exists o index,
        rd objs i = Ok o /\
        find_nearest_cluster (numClusters c) (numCoords c) o (clusters h0)
          = Ok index /\
        rd (membership h) i = Ok (if index =? 0 then 0 else i).
Proof.
  unfold omp_kmeans. intros _ H.
  apply bind_Ok in H as (m & _ & H).
  apply bind_Ok in H as (h0 & Hinit & H).
  exists h0. split; [exact Hinit|]. intros i Hi.
  change 502%nat with (S 501) in H.
  rewrite (first_pass_ends_loop c objs m h0 501 ltac:(lia) Hinit) in H.
  apply bind_Ok in H as (h1 & Eit & H). injection H as <- _.
  unfold iteration in Eit.
  apply bind_Ok in Eit as (ha & Ea & Eit).
  apply bind_Ok in Eit as (hr & Er & Eu).
  apply reduce_phase_frame in Er as [_ Hmr _ _ _].
  apply update_phase_frame in Eu as [_ Hmu _ _ _ _].
  destruct (assign_phase_membership c _ ha Ea i Hi)
    as (o & ix & Ho & Hix & Hm).
  cbn [objects clusters set_delta] in Ho, Hix.
  apply init_heap_frame in Hinit as [Hobjs _]. rewrite Hobjs in Ho.
  pose proof (nearest_inlined_sim c i o (clusters h0)) as Hsim.
  rewrite Hix in Hsim.
  destruct (find_nearest_cluster (numClusters c) (numCoords c) o
              (clusters h0)) as [index| |] eqn:Hfind;
    simpl in Hsim; try contradiction.
  exists o, index. split; [exact Ho|]. split; [exact Hfind|].
  rewrite Hmu, Hmr, Hm, Hsim. reflexivity.
Qed.

Lemma omp_kmeans_membership_value_witness :
  nthreads one_worker = 1 /\
  exists h h0,
    omp_kmeans one_worker near_points fone = Ok (h, 1%nat) /\
    membership h = [0; 1; 0] /\
    init_heap one_worker near_points = Ok h0 /\
    forall i, 0 <= i < 3 ->
      exists o index,
        rd near_points i = Ok o /\
        find_nearest_cluster 2 1 o (clusters h0) = Ok index /\
        rd (membership h) i = Ok (if index =? 0 then 0 else i).
Proof.
  split; [reflexivity|].
  assert (Hrun : exists h,
            omp_kmeans one_worker near_points fone = Ok (h, 1%nat) /\
            membership h = [0; 1; 0]).
  { eexists. split; [vm_compute; reflexivity|]. reflexivity. }
  destruct Hrun as (h & Hrun & Hmem).
  destruct (omp_kmeans_membership_value one_worker near_points fone h 1
              eq_refl Hrun) as (h0 & Hinit & Hall).
  exists h, h0. auto.
Defined.

Lemma init_heap_first_centres_witness :
  exists h,
    init_heap four_workers three_points = Ok h /\
    (forall i j, 0 <= i < 2 -> 0 <= j < 1 ->
       exists x, rd2 three_points i j = Ok x /\ rd2 (clusters h) i j = Ok x) /\
    (forall i, 0 <= i < 3 -> rd (membership h) i = Ok (-1)).
Proof.
  assert (Hrun : exists h, init_heap four_workers three_points = Ok h).
  { eexists. vm_compute. reflexivity. }
  destruct Hrun as [h Hrun]. exists h. split; [exact Hrun|].
  destruct (init_heap_first_centres four_workers three_points h Hrun)
    as (H1 & H2 & _).
  split; [exact H1 | exact H2].
Defined.

(** ** The counts of the accumulators *)

Lemma total_insert (l : list Z) (i : nat) (x y : Z) :
  l !! i = Some x -> total (<[i := y]> l) = total l - x + y.
Proof.
  revert i. induction l as [|a l IH]; intros [|i] H; simpl in *;
    try discriminate.
  - inv_ok H. lia.
  - rewrite (IH i H). lia.
Qed.

Lemma wr_total (a a' : list Z) (s x y : Z) :
  rd a s = Ok x -> wr a s y = Ok a' -> total a' = total a - x + y.
Proof.
  intros Hr Hw. apply rd_Ok in Hr as [_ Hr]. apply wr_Ok in Hw as [_ ->].
  apply total_insert. exact Hr.
Qed.

Lemma total_zero (l : list Z) :
  (forall i, (i < length l)%nat -> l !! i = Some 0) -> total l = 0.
Proof.
  induction l as [|a l IH]; intros H; simpl; [reflexivity|].
  pose proof (H 0%nat ltac:(simpl; lia)) as H0. simpl in H0. inv_ok H0.
  rewrite IH; [reflexivity|]. intros i Hi. apply (H (S i)). simpl. lia.
Qed.

Lemma local_slot_Ok (c : config) (tid index slot : Z) :
  local_slot c tid index = Ok slot ->
  0 <= tid < nthreads c /\ slot = tid * numClusters c + index.
Proof.
  unfold local_slot.
  destruct (Z.leb_spec 0 tid) as [H0|H0],
           (Z.ltb_spec tid (nthreads c)) as [H1|H1]; simpl;
    intros H; try discriminate. inv_ok H. lia.
Qed.

(** One object adds one to one count of the workers. *)
Lemma assign_point_counts_one (c : config) (i : Z) (h h' : heap) :
  assign_point c i h = Ok h' ->
  total (local_newClusterSize h') = total (local_newClusterSize h) + 1 /\
  length (local_newClusterSize h') = length (local_newClusterSize h).
Proof.
  unfold assign_point. intros H.
  apply bind_Ok in H as (coord1 & _ & H).
  apply bind_Ok in H as (index & _ & H).
  apply bind_Ok in H as (m & _ & H).
  apply bind_Ok in H as (mem' & _ & H).
  apply bind_Ok in H as (slot & _ & H).
  apply bind_Ok in H as (n & En & H).
  apply bind_Ok in H as (sizes' & Es & H).
  cbn [local_newClusterSize set_membership set_delta] in En, Es.
  match type of H with for_range _ _ _ ?h0 = _ => set (hs := h0) in * end.
  assert (Hk : local_newClusterSize h' = local_newClusterSize hs).
  { revert H.
    apply (for_range_preserves
             (fun t => local_newClusterSize t = local_newClusterSize hs));
      [|reflexivity].
    intros k t t' _ Ht Hb. step Hb. exact Ht. }
  rewrite Hk. subst hs. simpl.
  rewrite (wr_total _ _ _ _ _ En Es), (wr_length _ _ _ _ Es). lia.
Qed.

Lemma assign_phase_counts (c : config) (h h' : heap) :
  assign_phase c h = Ok h' ->
  total (local_newClusterSize h')
    = total (local_newClusterSize h) + Z.max 0 (numObjs c) /\
  length (local_newClusterSize h') = length (local_newClusterSize h).
Proof.
  unfold assign_phase. intros H.
  apply (for_range_inv (fun k t =>
    total (local_newClusterSize t) = total (local_newClusterSize h) + k /\
    length (local_newClusterSize t) = length (local_newClusterSize h))) in H.
  - exact H.
  - intros k t t' _ [Ht Hl] Hb. apply assign_point_counts_one in Hb as [Hb Hl'].
    split; [lia | congruence].
  - split; [lia | reflexivity].
Qed.

(** ** The reduction *)

Lemma rd_keeps_zero (a a' : list Z) (s s' : Z) :
  wr a s 0 = Ok a' -> rd a s' = Ok 0 -> rd a' s' = Ok 0.
Proof.
  intros Hw Hr. destruct (Z.eq_dec s' s) as [->|Hne].
  - eapply rd_wr_same; eauto.
  - rewrite (rd_wr_other _ _ _ _ _ Hw Hne). exact Hr.
Qed.

Lemma rd2_keeps_zero (a a' : list (list float)) (s k s' k' : Z) :
  wr2 a s k fzero = Ok a' -> rd2 a s' k' = Ok fzero ->
  rd2 a' s' k' = Ok fzero.
Proof.
  intros Hw Hr. destruct (Z.eq_dec s' s) as [->|Hs].
  - destruct (Z.eq_dec k' k) as [->|Hk].
    + eapply rd2_wr2_same; eauto.
    + rewrite (rd2_wr2_other_col _ _ _ _ _ _ Hw Hk). exact Hr.
  - rewrite (rd2_wr2_other_row _ _ _ _ _ k' _ Hw Hs). exact Hr.
Qed.

Lemma reduced_weaken (c : config) (h t : heap) (D D' : Z -> Z -> Prop)
    (E E' : Z -> Z -> Z -> Prop) :
  (forall w i, D' w i -> D w i) -> (forall w i k, E' w i k -> E w i k) ->
  reduced c h t D E -> reduced c h t D' E'.
Proof. intros HD HE []. split; auto. Qed.

Lemma reduce_phase_reduced (c : config) (h h' : heap) :
  reduce_phase c h = Ok h' ->
  reduced c h h'
    (fun w i => 0 <= w < nthreads c /\ 0 <= i < numClusters c)
    (fun w i k => (0 <= w < nthreads c /\ 0 <= i < numClusters c) /\
                  0 <= k < numCoords c).
Proof.
  unfold reduce_phase. intros H.
  apply (for_range_inv (fun i t =>
    reduced c h t
      (fun w i' => 0 <= w < nthreads c /\ 0 <= i' < i)
      (fun w i' k => (0 <= w < nthreads c /\ 0 <= i' < i) /\
                     0 <= k < numCoords c))) in H.
  - revert H. apply reduced_weaken; intros; lia.
  - clear H. intros i t t' Hi Ht Hrow.
    apply (for_range_inv (fun j u =>
      reduced c h u
        (fun w i' => (0 <= w < nthreads c /\ 0 <= i' < i) \/
                     (0 <= w < j /\ i' = i))
        (fun w i' k => ((0 <= w < nthreads c /\ 0 <= i' < i) \/
                        (0 <= w < j /\ i' = i)) /\
                       0 <= k < numCoords c))) in Hrow.
    + revert Hrow. apply reduced_weaken; intros; lia.
    + clear Hrow. intros j u u' Hj Hu Hb.
      apply bind_Ok in Hb as (slot & Eslot & Hb).
      apply local_slot_Ok in Eslot as [Hw ->].
      apply bind_Ok in Hb as (tot & Etot & Hb).
      apply bind_Ok in Hb as (part & Epart & Hb).
      apply bind_Ok in Hb as (totals' & Etotals & Hb).
      apply bind_Ok in Hb as (parts' & Eparts & Hb).
      cbn [newClusterSize local_newClusterSize set_newClusterSize
           set_local_newClusterSize] in Eparts.
      destruct Hu as [Ut Ul Us Uf].
      apply (for_range_inv (fun k v =>
        reduced c h v
          (fun w i' => (0 <= w < nthreads c /\ 0 <= i' < i) \/
                       (0 <= w < j + 1 /\ i' = i))
          (fun w i' k' => (((0 <= w < nthreads c /\ 0 <= i' < i) \/
                            (0 <= w < j /\ i' = i)) /\
                           0 <= k' < numCoords c) \/
                          ((w = j /\ i' = i) /\ 0 <= k' < k)))) in Hb.
      * revert Hb. apply reduced_weaken; intros; lia.
      * clear Hb. intros k v v' Hk [Vt Vl Vs Vf] Hb.
        apply bind_Ok in Hb as (sum & _ & Hb).
        apply bind_Ok in Hb as (p & _ & Hb).
        apply bind_Ok in Hb as (sums' & _ & Hb).
        apply bind_Ok in Hb as (ps' & Eps & Hb). inv_ok Hb.
        cbn [local_newClusters set_newClusters] in Eps.
        split; simpl; auto.
        intros w i' k' Hd.
        destruct (Z.eq_dec w j) as [->|Hwj];
          [destruct (Z.eq_dec i' i) as [->|Hii];
             [destruct (Z.eq_dec k' k) as [->|Hkk]|]|].
        -- eapply rd2_wr2_same; eauto.
        -- eapply rd2_keeps_zero; eauto. apply Vf. lia.
        -- eapply rd2_keeps_zero; eauto. apply Vf. lia.
        -- eapply rd2_keeps_zero; eauto. apply Vf. lia.
      * split; simpl.
        -- rewrite (wr_total _ _ _ _ _ Etot Etotals),
                   (wr_total _ _ _ _ _ Epart Eparts). lia.
        -- rewrite (wr_length _ _ _ _ Eparts). exact Ul.
        -- intros w i' Hd.
           destruct (Z.eq_dec w j) as [->|Hwj];
             [destruct (Z.eq_dec i' i) as [->|Hii]|].
           ++ eapply rd_wr_same; eauto.
           ++ eapply rd_keeps_zero; eauto. apply Us. lia.
           ++ eapply rd_keeps_zero; eauto. apply Us. lia.
        -- intros w i' k' Hd. apply Uf. lia.
    + revert Ht. apply reduced_weaken; intros; lia.
  - split; auto; intros; lia.
Qed.

(** X11.  With one worker, every point the parallel region has processed
    is in exactly one of the counts the reduction gathers: the global
    counts grow by the counts of the worker and by the number of points.
    (With several workers two of them can add to one slot without
    synchronisation; the property is not stated for them.) *)
Theorem reduced_counts_add_up (c : config) (h ha hr : heap) :
  nthreads c = 1 ->
  0 < numClusters c ->
  length (local_newClusterSize h)
    = Z.to_nat (nthreads c * numClusters c) ->
  assign_phase c h = Ok ha ->
  reduce_phase c ha = Ok hr ->
  total (newClusterSize hr)
    = total (newClusterSize h) + total (local_newClusterSize h)
      + Z.max 0 (numObjs c).
Proof.
  intros _ HK Hlen Ha Hr.
  pose proof (assign_phase_frame _ _ _ Ha) as [_ _ Hsz _ _ _ _].
  apply assign_phase_counts in Ha as [Hta Hla].
  apply reduce_phase_reduced in Hr as [Ht Hl Hz _].
  assert (H0 : total (local_newClusterSize hr) = 0).
  { apply total_zero. intros s Hs.
    rewrite Hl, Hla, Hlen in Hs.
    pose proof (Z.div_mod (Z.of_nat s) (numClusters c) ltac:(lia)) as Hdm.
    pose proof (Z.mod_pos_bound (Z.of_nat s) (numClusters c) HK) as Hm.
    assert (Hq : 0 <= Z.of_nat s / numClusters c < nthreads c).
    { split; [apply Z.div_pos; lia|].
      apply Z.div_lt_upper_bound; [lia|]. rewrite Z.mul_comm. lia. }
    specialize (Hz _ _ (conj Hq Hm)).
    apply rd_Ok in Hz as [_ Hz].
    replace (Z.to_nat (Z.of_nat s / numClusters c * numClusters c
                       + Z.of_nat s mod numClusters c)) with s in Hz.
    - exact Hz.
    - rewrite (Z.mul_comm _ (numClusters c)), <- Hdm. lia. }
  rewrite Hsz in Ht. lia.
Qed.

Lemma reduced_counts_add_up_witness :
  nthreads one_worker = 1 /\
  exists h ha hr,
    init_heap one_worker near_points = Ok h /\
    assign_phase one_worker h = Ok ha /\
    reduce_phase one_worker ha = Ok hr /\
    newClusterSize hr = [2; 1] /\
    total (newClusterSize hr)
      = total (newClusterSize h) + total (local_newClusterSize h)
        + Z.max 0 (numObjs one_worker).
Proof.
  split; [reflexivity|].
  assert (Hrun : exists h ha hr,
            init_heap one_worker near_points = Ok h /\
            length (local_newClusterSize h)
              = Z.to_nat (nthreads one_worker * numClusters one_worker) /\
            assign_phase one_worker h = Ok ha /\
            reduce_phase one_worker ha = Ok hr /\
            newClusterSize hr = [2; 1]).
  { do 3 eexists. split; [vm_compute; reflexivity|].
    split; [vm_compute; reflexivity|].
    split; [vm_compute; reflexivity|].
    split; [vm_compute; reflexivity|].
    reflexivity. }
  destruct Hrun as (h & ha & hr & Hh & Hlen & Ha & Hr & Hsz).
  exists h, ha, hr. split; [exact Hh|]. split; [exact Ha|].
  split; [exact Hr|]. split; [exact Hsz|].
  apply (reduced_counts_add_up one_worker h ha hr);
    [reflexivity | simpl; lia | exact Hlen | exact Ha | exact Hr].
Defined.

(** ** The accumulators after a pass *)

Lemma update_phase_zeroes (c : config) (h h' : heap) :
  update_phase c h = Ok h' ->
  forall i, 0 <= i < numClusters c ->
    rd (newClusterSize h') i = Ok 0 /\
    forall j, 0 <= j < numCoords c -> rd2 (newClusters h') i j = Ok fzero.
Proof.
  unfold update_phase. intros H.
  assert (Hall : forall i, 0 <= i < Z.max 0 (numClusters c) ->
            rd (newClusterSize h') i = Ok 0 /\
            forall j, 0 <= j < numCoords c ->
              rd2 (newClusters h') i j = Ok fzero);
    [|intros i Hi; apply Hall; lia].
  revert H.
  apply (for_range_inv (fun k t =>
    forall i, 0 <= i < k ->
      rd (newClusterSize t) i = Ok 0 /\
      forall j, 0 <= j < numCoords c ->
        rd2 (newClusters t) i j = Ok fzero)).
  - intros k t t' Hk Ht Hb.
    apply bind_Ok in Hb as (u & Eu & Hb).
    apply bind_Ok in Hb as (sizes' & Es & Hb). injection Hb as <-.
    apply (for_range_inv (fun l v =>
      (forall i, 0 <= i < k -> rd (newClusterSize v) i = Ok 0) /\
      forall i j, (0 <= i < k /\ 0 <= j < numCoords c) \/
                  (i = k /\ 0 <= j < l) ->
        rd2 (newClusters v) i j = Ok fzero)) in Eu.
    + destruct Eu as [Usz Usm]. intros i Hi. simpl. split.
      * destruct (Z.eq_dec i k) as [->|Hne].
        -- eapply rd_wr_same; eauto.
        -- eapply rd_keeps_zero; eauto. apply Usz. lia.
      * intros j Hj. apply Usm. lia.
    + clear Eu. intros l v v' Hl [Vsz Vsm] Hb.
      apply bind_Ok in Hb as (n & _ & Hb).
      apply bind_Ok in Hb as (v1 & Ev1 & Hb).
      apply bind_Ok in Hb as (sums' & Esums & Hb). injection Hb as <-.
      assert (Hsame : newClusterSize v1 = newClusterSize v /\
                      newClusters v1 = newClusters v).
      { destruct (n >? 1); step_all; auto. }
      destruct Hsame as [Hs1 Hs2]. rewrite Hs2 in Esums. simpl.
      rewrite Hs1. split; [exact Vsz|].
      intros i j Hij. destruct (Z.eq_dec i k) as [->|Hik];
        [destruct (Z.eq_dec j l) as [->|Hjl]|].
      * eapply rd2_wr2_same; eauto.
      * eapply rd2_keeps_zero; eauto. apply Vsm. lia.
      * eapply rd2_keeps_zero; eauto. apply Vsm. lia.
    + split.
      * intros i Hi. apply Ht. exact Hi.
      * intros i j Hij. apply Ht; lia.
  - intros i Hi. lia.
Qed.

(** X12.  Every pass of the loop body leaves all four accumulators zero, for
    the next pass to fill: the counts and sums of every worker and the
    global counts and sums. *)
Theorem iteration_leaves_accumulators_zero (c : config) (h h' : heap)
    (i : Z) :
  iteration c h = Ok h' -> 0 <= i < numClusters c ->
  rd (newClusterSize h') i = Ok 0 /\
  (forall j, 0 <= j < numCoords c -> rd2 (newClusters h') i j = Ok fzero) /\
  (forall w, 0 <= w < nthreads c ->
     rd (local_newClusterSize h') (w * numClusters c + i) = Ok 0 /\
     forall j, 0 <= j < numCoords c ->
       rd2 (local_newClusters h') (w * numClusters c + i) j = Ok fzero).
Proof.
  unfold iteration. intros H Hi.
  apply bind_Ok in H as (ha & _ & H).
  apply bind_Ok in H as (hr & Er & H).
  apply reduce_phase_reduced in Er as [_ _ Hz Hf].
  pose proof (update_phase_frame _ _ _ H) as [_ _ Hl1 Hl2 _ _].
  destruct (update_phase_zeroes _ _ _ H i Hi) as [Hg1 Hg2].
  split; [exact Hg1|]. split; [exact Hg2|].
  intros w Hw. rewrite Hl1, Hl2. split.
  - apply Hz. lia.
  - intros j Hj. apply Hf. lia.
Qed.

Lemma iteration_leaves_accumulators_zero_witness :
  exists h h',
    init_heap four_workers three_points = Ok h /\
    iteration four_workers h = Ok h' /\
    rd (newClusterSize h') 1 = Ok 0 /\
    (forall j, 0 <= j < 1 -> rd2 (newClusters h') 1 j = Ok fzero) /\
    (forall w, 0 <= w < 4 ->
       rd (local_newClusterSize h') (w * 2 + 1) = Ok 0 /\
       forall j, 0 <= j < 1 ->
         rd2 (local_newClusters h') (w * 2 + 1) j = Ok fzero).
Proof.
  assert (Hrun : exists h h',
            init_heap four_workers three_points = Ok h /\
            iteration four_workers h = Ok h').
  { do 2 eexists. split; [vm_compute; reflexivity|].
    vm_compute. reflexivity. }
  destruct Hrun as (h & h' & Hh & Hit).
  exists h, h'. split; [exact Hh|]. split; [exact Hit|].
  apply (iteration_leaves_accumulators_zero four_workers h h' 1 Hit).
  simpl. lia.
Defined.

(** ** The search for the block size *)

Lemma find_blk_range_bounds (dim : Z) (n : nat) :
  (1 <= n)%nat ->
  1 <= MatrixMul.find_blk_range dim n <= Z.of_nat n /\
  Z.modulo dim (MatrixMul.find_blk_range dim n) = 0 /\
  forall d, MatrixMul.find_blk_range dim n < d <= Z.of_nat n ->
            Z.modulo dim d <> 0.
Proof.
  induction n as [|n IH]; intros Hn; [lia|].
  cbn [MatrixMul.find_blk_range].
  destruct (Z.eqb_spec (Z.modulo dim (Z.of_nat (S n))) 0) as [H0|H0].
  - split; [lia|]. split; [exact H0|]. intros d Hd. lia.
  - destruct n as [|n].
    + exfalso. apply H0. apply Z.mod_1_r.
    + destruct IH as (Hr & Hm & Hbig); [lia|].
      split; [lia|]. split; [exact Hm|].
      intros d Hd. destruct (Z.eq_dec d (Z.of_nat (S (S n)))) as [->|Hne].
      * exact H0.
      * apply Hbig. lia.
Qed.

(** X13.  The block size [matrix_mul.cpp] settles on is the largest divisor of
    the dimension that does not exceed 128. *)
Theorem find_blk_range_largest_divisor (dim : Z) :
  1 <= MatrixMul.find_blk_range dim 128 <= 128 /\
  Z.modulo dim (MatrixMul.find_blk_range dim 128) = 0 /\
  forall d, MatrixMul.find_blk_range dim 128 < d <= 128 ->
            Z.modulo dim d <> 0.
Proof. apply (find_blk_range_bounds dim 128). lia. Qed.

(** ** One call of the block routine *)

Section ExactBlocks.
Context {R : Type} (rO rI : R) (radd rmul rsub : R -> R -> R)
  (ropp : R -> R).
Hypothesis Rth : ring_theory rO rI radd rmul rsub ropp eq.
Add Ring Rblocks : Rth.

Variables (A B Cin : @buffer R) (dim kb : Z).
Hypothesis dim_fits : dim * dim <= 2 ^ 32.

Local Abbreviation shifted i j :=
  (fun t => product_term rmul A B dim i j (kb + t)).
Local Abbreviation acc := (accumulated rO radd rmul A B Cin dim kb).

Ltac split_cases :=
  repeat match goal with
  | |- context [Z.eqb ?a ?b] => destruct (Z.eqb_spec a b)
  | |- context [Z.ltb ?a ?b] => destruct (Z.ltb_spec a b)
  | |- context [Z.leb ?a ?b] => destruct (Z.leb_spec a b)
  end; simpl; try lia.

Ltac same_tally_acc :=
  let i := fresh "i" in
  let j := fresh "j" in
  intros i j ? ?; unfold bump_if, entry; split_cases.

Lemma acc_ext (g g' : tally) (C : buffer) :
  (forall i j, 0 <= i < dim -> 0 <= j < dim -> g i j = g' i j) ->
  acc g C -> acc g' C.
Proof.
  intros Hg [Hin Hout]. split; [|exact Hout].
  intros i j Hi Hj. rewrite <- (Hg i j Hi Hj). apply Hin; auto.
Qed.

Lemma acc_start : acc (fun _ _ => 0) Cin.
Proof.
  split; [|reflexivity]. intros i j _ _. split; [lia|]. simpl. ring.
Qed.

Lemma acc_step (g : tally) (C : buffer) (i j t : Z) :
  0 <= i < dim -> 0 <= j < dim -> g i j = t ->
  acc g C ->
  acc (bump_if g (entry i j) 1)
    (add_to radd C (i * dim + j) (product_term rmul A B dim i j (kb + t))).
Proof.
  intros Hi Hj Ht [Hin Hout]. split.
  - intros i' j' Hi' Hj'. unfold bump_if, entry, add_to, store.
    destruct (Hin i' j' Hi' Hj') as [Hg HC].
    destruct (Z.eqb_spec (i' * dim + j') (i * dim + j)) as [Heq|Hne].
    + apply cell_inj in Heq as [-> ->]; auto.
      rewrite !Z.eqb_refl. simpl. split; [lia|].
      rewrite psum_succ by lia. rewrite HC, Ht. ring.
    + destruct (Z.eqb_spec i' i) as [->|]; simpl; auto.
      destruct (Z.eqb_spec j' j) as [->|]; simpl; auto.
      congruence.
  - intros idx Hidx. unfold add_to, store.
    pose proof (cell_range dim dim_fits i j Hi Hj).
    destruct (Z.eqb_spec idx (i * dim + j)); [lia|]. apply Hout, Hidx.
Qed.

Lemma acc_step4 (g : tally) (C : buffer) (i j t : Z) :
  0 <= i < dim -> 0 <= j < dim -> g i j = t ->
  acc g C ->
  acc (bump_if g (entry i j) 4)
    (add_to radd C (i * dim + j)
       (radd (radd (radd (product_term rmul A B dim i j (kb + t))
                      (product_term rmul A B dim i j (kb + t + 1)))
                (product_term rmul A B dim i j (kb + t + 2)))
          (product_term rmul A B dim i j (kb + t + 3)))).
Proof.
  intros Hi Hj Ht [Hin Hout]. split.
  - intros i' j' Hi' Hj'. unfold bump_if, entry, add_to, store.
    destruct (Hin i' j' Hi' Hj') as [Hg HC].
    destruct (Z.eqb_spec (i' * dim + j') (i * dim + j)) as [Heq|Hne].
    + apply cell_inj in Heq as [-> ->]; auto.
      rewrite !Z.eqb_refl. simpl. split; [lia|].
      replace (g i j + 4) with (t + 1 + 1 + 1 + 1) by lia.
      rewrite !psum_succ by lia. rewrite HC, Ht.
      replace (kb + (t + 1)) with (kb + t + 1) by lia.
      replace (kb + (t + 1 + 1)) with (kb + t + 2) by lia.
      replace (kb + (t + 1 + 1 + 1)) with (kb + t + 3) by lia. ring.
    + destruct (Z.eqb_spec i' i) as [->|]; simpl; auto.
      destruct (Z.eqb_spec j' j) as [->|]; simpl; auto.
      congruence.
  - intros idx Hidx. unfold add_to, store.
    pose proof (cell_range dim dim_fits i j Hi Hj).
    destruct (Z.eqb_spec idx (i * dim + j)); [lia|]. apply Hout, Hidx.
Qed.

Lemma subblock_row_accumulates (ib jb blk col row : Z) (fuel : nat) :
  0 <= ib -> ib + blk <= dim -> 0 <= jb -> jb + blk <= dim ->
  0 <= kb -> kb + blk <= dim -> 0 <= row < blk -> 0 <= col < blk ->
  forall (count : Z) (g : tally) (C : buffer),
    0 <= count <= blk -> blk - count <= Z.of_nat fuel ->
    g (ib + row) (jb + col) = count -> acc g C ->
    exists C',
      MatrixMul.subblock_row radd rmul fuel A (ib * dim + kb)
        B (kb * dim + jb) (ib * dim + jb) blk dim col row count C
      = Some C' /\
      acc (bump_if g (entry (ib + row) (jb + col)) (blk - count)) C'.
Proof.
  intros Hib Hib' Hjb Hjb' Hkb Hkb' Hrow Hcol.
  pose proof (dim_small dim dim_fits ltac:(lia)) as Hsmall.
  induction fuel as [|fuel IH]; intros count g C Hc Hf Hg HC.
  - simpl. destruct (Z.ltb_spec count blk); [lia|].
    exists C. split; [reflexivity|].
    revert HC. apply acc_ext. same_tally_acc.
  - cbn [MatrixMul.subblock_row].
    destruct (Z.ltb_spec count blk) as [Hlt|Hge].
    2:{ exists C. split; [reflexivity|].
        revert HC. apply acc_ext. same_tally_acc. }
    rewrite (u32_small (count + 4)) by lia.
    rewrite (u32_small (count + 1)) by lia.
    replace (ib * dim + jb + u32 (u32 (row * dim) + col))
      with ((ib + row) * dim + (jb + col))
      by (rewrite (u32_cell dim dim_fits) by lia; ring).
    destruct (Z.ltb_spec (count + 4) blk) as [H4|H4].
    + match goal with
      | |- context [add_to radd C _ ?v] =>
          replace v with
            (radd (radd (radd
               (product_term rmul A B dim (ib + row) (jb + col) (kb + count))
               (product_term rmul A B dim (ib + row) (jb + col)
                  (kb + count + 1)))
               (product_term rmul A B dim (ib + row) (jb + col)
                  (kb + count + 2)))
               (product_term rmul A B dim (ib + row) (jb + col)
                  (kb + count + 3)))
      end.
      2:{ symmetry. f_equal; [f_equal; [f_equal|]|]; apply term_at;
            rewrite ?(u32_row_count dim dim_fits),
                    ?(u32_count_col dim dim_fits),
                    ?(u32_cell dim dim_fits) by lia;
            ring. }
      destruct (IH (count + 4)
                  (bump_if g (entry (ib + row) (jb + col)) 4)
                  (add_to radd C ((ib + row) * dim + (jb + col))
                     (radd (radd (radd
                        (product_term rmul A B dim (ib + row) (jb + col)
                           (kb + count))
                        (product_term rmul A B dim (ib + row) (jb + col)
                           (kb + count + 1)))
                        (product_term rmul A B dim (ib + row) (jb + col)
                           (kb + count + 2)))
                        (product_term rmul A B dim (ib + row) (jb + col)
                           (kb + count + 3)))))
        as (C' & Hrun & HC'); try lia.
      * unfold bump_if, entry. rewrite !Z.eqb_refl. simpl. lia.
      * apply acc_step4; auto; lia.
      * exists C'. split; [exact Hrun|].
        revert HC'. apply acc_ext. same_tally_acc.
    + match goal with
      | |- context [add_to radd C _ ?v] =>
          replace v with
            (product_term rmul A B dim (ib + row) (jb + col) (kb + count))
      end.
      2:{ symmetry. apply term_at;
            rewrite ?(u32_cell dim dim_fits) by lia; ring. }
      destruct (IH (count + 1)
                  (bump_if g (entry (ib + row) (jb + col)) 1)
                  (add_to radd C ((ib + row) * dim + (jb + col))
                     (product_term rmul A B dim (ib + row) (jb + col)
                        (kb + count))))
        as (C' & Hrun & HC'); try lia.
      * unfold bump_if, entry. rewrite !Z.eqb_refl. simpl. lia.
      * apply acc_step; auto; lia.
      * exists C'. split; [exact Hrun|].
        revert HC'. apply acc_ext. same_tally_acc.
Qed.

Lemma subblock_accumulated (C : buffer) (ib jb blk : Z) :
  0 <= ib -> ib + blk <= dim -> 0 <= jb -> jb + blk <= dim ->
  0 <= kb -> kb + blk <= dim -> 0 <= blk ->
  acc (fun _ _ => 0) C ->
  exists C',
    MatrixMul.matrix_multiplication_subblock radd rmul
      A (ib * dim + kb) B (kb * dim + jb) C (ib * dim + jb) blk dim
    = Some C' /\
    acc (bump_if (fun _ _ => 0)
           (fun i' j' => ((ib <=? i') && (i' <? ib + blk)) &&
                         ((jb <=? j') && (j' <? jb + blk))) blk) C'.
Proof.
  intros Hib Hib' Hjb Hjb' Hkb Hkb' Hblk HC.
  pose proof (dim_small dim dim_fits ltac:(lia)).
  unfold MatrixMul.matrix_multiplication_subblock.
  destruct (for_u32_inv1
    (fun col C =>
       acc (bump_if (fun _ _ => 0)
              (fun i' j' => ((ib <=? i') && (i' <? ib + blk)) &&
                            ((jb <=? j') && (j' <? jb + col))) blk) C)
    (fun col C =>
       for_u32 0 blk 1
         (fun row C =>
            MatrixMul.subblock_row radd rmul (Z.to_nat blk)
              A (ib * dim + kb) B (kb * dim + jb) (ib * dim + jb)
              blk dim col row 0 C) C)
    0 blk C) as (C' & Hrun & HC'); try lia.
  - revert HC. apply acc_ext. same_tally_acc.
  - intros col D Hcol HD.
    destruct (for_u32_inv1
      (fun row C =>
         acc (bump_if
                (bump_if (fun _ _ => 0)
                   (fun i' j' => ((ib <=? i') && (i' <? ib + blk)) &&
                                 ((jb <=? j') && (j' <? jb + col))) blk)
                (fun i' j' => ((ib <=? i') && (i' <? ib + row)) &&
                              (j' =? jb + col)) blk) C)
      (fun row C =>
         MatrixMul.subblock_row radd rmul (Z.to_nat blk)
           A (ib * dim + kb) B (kb * dim + jb) (ib * dim + jb)
           blk dim col row 0 C)
      0 blk D) as (D' & Hrun & HD'); try lia.
    + revert HD. apply acc_ext. same_tally_acc.
    + intros row E Hrow HE.
      destruct (subblock_row_accumulates ib jb blk col row (Z.to_nat blk)
                  Hib Hib' Hjb Hjb' Hkb Hkb' Hrow Hcol 0
                  (bump_if
                     (bump_if (fun _ _ => 0)
                        (fun i' j' =>
                           ((ib <=? i') && (i' <? ib + blk)) &&
                           ((jb <=? j') && (j' <? jb + col))) blk)
                     (fun i' j' =>
                        ((ib <=? i') && (i' <? ib + row)) &&
                        (j' =? jb + col)) blk)
                  E)
        as (E' & Hrun & HE'); try lia; auto.
      * unfold bump_if. split_cases.
      * exists E'. split; [exact Hrun|].
        revert HE'. apply acc_ext. same_tally_acc.
    + exists D'. split; [exact Hrun|].
      revert HD'. apply acc_ext. same_tally_acc.
  - exists C'. split; [exact Hrun | exact HC'].
Qed.

(** X14.  In exact arithmetic (the elements of a ring), one call of the
    block routine of [matrix_mul.cpp] on the blocks at [(ib, kb)] of [A],
    [(kb, jb)] of [B] and [(ib, jb)] of the result adds to every entry of
    the result block the sum of the [blk] products of the two factor
    blocks, on top of what the entry held; it writes nothing else. *)
Theorem matrix_multiplication_subblock_adds_block_product (ib jb blk : Z) :
  0 <= ib -> ib + blk <= dim -> 0 <= jb -> jb + blk <= dim ->
  0 <= kb -> kb + blk <= dim -> 0 <= blk ->
  exists C',
    MatrixMul.matrix_multiplication_subblock radd rmul
      A (ib * dim + kb) B (kb * dim + jb) Cin (ib * dim + jb) blk dim
    = Some C' /\
    (forall i j, ib <= i < ib + blk -> jb <= j < jb + blk ->
       C' (i * dim + j) =
         radd (Cin (i * dim + j))
           (partial_sum rO radd
              (fun t => product_term rmul A B dim i j (kb + t))
              (Z.to_nat blk))) /\
    (forall i j, 0 <= i < dim -> 0 <= j < dim ->
       ~ (ib <= i < ib + blk /\ jb <= j < jb + blk) ->
       C' (i * dim + j) = Cin (i * dim + j)) /\
    (forall idx, ~ 0 <= idx < dim * dim -> C' idx = Cin idx).
Proof.
  intros Hib Hib' Hjb Hjb' Hkb Hkb' Hblk.
  destruct (subblock_accumulated Cin ib jb blk Hib Hib' Hjb Hjb' Hkb Hkb'
              Hblk acc_start) as (C' & Hrun & Hin & Hout).
  exists C'. split; [exact Hrun|]. split; [|split; [|exact Hout]].
  - intros i j Hi Hj.
    destruct (Hin i j ltac:(lia) ltac:(lia)) as [_ ->].
    unfold bump_if.
    destruct (Z.leb_spec ib i); [|lia].
    destruct (Z.ltb_spec i (ib + blk)); [|lia].
    destruct (Z.leb_spec jb j); [|lia].
    destruct (Z.ltb_spec j (jb + blk)); [|lia].
    reflexivity.
  - intros i j Hi Hj Hno.
    destruct (Hin i j Hi Hj) as [_ ->].
    unfold bump_if.
    destruct (Z.leb_spec ib i); destruct (Z.ltb_spec i (ib + blk));
      destruct (Z.leb_spec jb j); destruct (Z.ltb_spec j (jb + blk));
      simpl; try (exfalso; apply Hno; lia); ring.
Qed.
End ExactBlocks.

Lemma matrix_multiplication_subblock_adds_block_product_witness :
  exists C',
    MatrixMul.matrix_multiplication_subblock Z.add Z.mul
      two_by_two_a (1 * 2 + 0) two_by_two_b (0 * 2 + 1) (fun _ => 77)
      (1 * 2 + 1) 1 2
    = Some C' /\
    (forall i j, 1 <= i < 1 + 1 -> 1 <= j < 1 + 1 ->
       C' (i * 2 + j) =
         Z.add ((fun _ => 77) (i * 2 + j))
           (partial_sum 0 Z.add
              (fun t => product_term Z.mul two_by_two_a two_by_two_b
                          2 i j (0 + t))
              (Z.to_nat 1))) /\
    (forall i j, 0 <= i < 2 -> 0 <= j < 2 ->
       ~ (1 <= i < 1 + 1 /\ 1 <= j < 1 + 1) ->
       C' (i * 2 + j) = (fun _ : Z => 77) (i * 2 + j)) /\
    (forall idx, ~ 0 <= idx < 2 * 2 -> C' idx = (fun _ : Z => 77) idx).
Proof.
  apply (matrix_multiplication_subblock_adds_block_product
           0 1 Z.add Z.mul Z.sub Z.opp Zth
           two_by_two_a two_by_two_b (fun _ => 77) 2 0); lia.
Defined.

(** ** The result buffer outside the matrix *)

(** X15.  For every dimension up to 65536 the routine of [matrix_mul.cpp]
    returns, fills the [dim] x [dim] result with the product and leaves
    every other element of the result buffer as it found it. *)
Theorem matrix_multiplication_fills_only_the_result {R : Type}
    (rO rI : R) (radd rmul rsub : R -> R -> R) (ropp : R -> R)
    (Rth : ring_theory rO rI radd rmul rsub ropp eq)
    (A B C0 : buffer) (dim : Z) :
  0 <= dim -> dim * dim <= 2 ^ 32 ->
  exists C,
    MatrixMul.matrix_multiplication rO radd rmul A B C0 dim = Some C /\
    (forall i j, 0 <= i < dim -> 0 <= j < dim ->
       C (i * dim + j) = product_entry rO radd rmul A B dim i j) /\
    (forall idx, ~ 0 <= idx < dim * dim -> C idx = C0 idx).
Proof.
  intros Hd Hle.
  destruct (matrix_multiplication_rep rO rI radd rmul rsub ropp Rth
              A B C0 dim Hle Hd) as (C & Hrun & HC).
  exists C. split; [exact Hrun|].
  apply (rep_final rO radd rmul A B C0 dim (fun _ _ => dim) C);
    [reflexivity | exact HC].
Qed.

Lemma matrix_multiplication_fills_only_the_result_witness :
  exists C,
    MatrixMul.matrix_multiplication 0 Z.add Z.mul
      two_by_two_a two_by_two_b (fun _ => 77) 2 = Some C /\
    (forall i j, 0 <= i < 2 -> 0 <= j < 2 ->
       C (i * 2 + j)
         = product_entry 0 Z.add Z.mul two_by_two_a two_by_two_b 2 i j) /\
    (forall idx, ~ 0 <= idx < 2 * 2 -> C idx = (fun _ : Z => 77) idx).
Proof.
  apply (matrix_multiplication_fills_only_the_result 0 1 Z.add Z.mul Z.sub
           Z.opp Zth two_by_two_a two_by_two_b (fun _ => 77) 2); lia.
Defined.

(** X16.  Below the dimension 65536 the routine of [matrix_mul4.cc] returns and
    leaves every element of the result buffer outside the [dim] x [dim]
    result as it found it. *)
Theorem matrix_multiplication4_writes_only_the_result {R : Type}
    (rO : R) (radd rmul : R -> R -> R) (A B C0 : buffer) (dim : Z) :
  0 <= dim -> dim * dim < 2 ^ 32 ->
  exists C,
    MatrixMul4.matrix_multiplication rO radd rmul A B C0 dim = Some C /\
    (forall idx, ~ 0 <= idx < dim * dim -> C idx = C0 idx).
Proof.
  intros Hd Hlt.
  destruct (matrix_multiplication4_rep rO radd rmul A B C0 dim
              ltac:(lia) Hd Hlt) as (C & Hrun & _ & Hout).
  exists C. split; [exact Hrun | exact Hout].
Qed.

Lemma matrix_multiplication4_writes_only_the_result_witness :
  exists C,
    MatrixMul4.matrix_multiplication 0 Z.add Z.mul
      two_by_two_a two_by_two_b (fun _ => 77) 2 = Some C /\
    (forall idx, ~ 0 <= idx < 2 * 2 -> C idx = (fun _ : Z => 77) idx).
Proof.
  apply (matrix_multiplication4_writes_only_the_result 0 Z.add Z.mul
           two_by_two_a two_by_two_b (fun _ => 77) 2); lia.
Defined.
